(** * Aim Trainer: the target entity and the game loop of [tutorial.py]

    A shallow embedding of the script: the [Target] class (constructor,
    [update], [draw], [collide]), the painting of the targets ([draw]),
    the time label ([format_time]), the arithmetic of the two information
    panels ([draw_top_bar], [end_screen], [get_middle]) and one iteration
    of the [while run] loop of [main], followed by the properties the
    specification states about them and by further properties of the
    code.

    Python [float]s are IEEE-754 binary64 numbers and are modelled by the
    primitive floats of the kernel, so that [0.2] is the double nearest to
    one fifth and every sum is rounded as in the interpreter.  Python
    [int]s are unbounded and are modelled by [Z]. *)

From Stdlib Require Import ZArith Bool Lia Reals Lra.
From Stdlib Require Import Floats.
From stdpp Require Import base list.
From stdpp Require Import strings sorting.
From Stdlib Require Import DecimalString.

Local Open Scope Z_scope.

(* ================================================================== *)
(** ** Python numbers *)

(** The exceptions the modelled code can raise. *)
Inductive exn : Type :=
| ZeroDivisionError
| ValueError.

(** Result of a computation that may raise.  [OutOfFuel] is the answer of
    a bounded loop whose bound was too small; it is not a Python outcome
    and is shown never to occur ([for_targets_total]). *)
Inductive res (A : Type) : Type :=
| Ok (a : A)
| Raise (e : exn)
| OutOfFuel.

Arguments Ok {A} a.
Arguments Raise {A} e.
Arguments OutOfFuel {A}.

Definition bind {A B : Type} (m : res A) (k : A -> res B) : res B :=
  match m with
  | Ok a => k a
  | Raise e => Raise e
  | OutOfFuel => OutOfFuel
  end.

Notation "'let!' x ':=' m 'in' k" := (bind m (fun x => k))
  (at level 10, x name, m at level 100, k at level 200).

(** [float(n)] for an [int]: the nearest double, ties to even.  It is exact
    below [2^53].  (An [int] beyond the range of a double makes CPython
    raise [OverflowError] where this conversion answers an infinity; the
    integers of this program are screen coordinates and session counters.) *)
Definition float_of_int (n : Z) : float :=
  SF2Prim (binary_normalize prec emax n 0 false).

(** [a / b] with [a : int] and [b : float]. *)
Definition truediv_int_float (a : Z) (b : float) : res float :=
  if (b =? 0)%float then Raise ZeroDivisionError
  else Ok (float_of_int a / b)%float.

(** [a / b] with both operands [int]: true division.  Both conversions are
    exact for operands below [2^53], and the quotient is then the correctly
    rounded one, as in CPython. *)
Definition truediv_int_int (a b : Z) : res float :=
  if b =? 0 then Raise ZeroDivisionError
  else Ok (float_of_int a / float_of_int b)%float.

(** The integer nearest to [m * 2^e], ties to the even one. *)
Definition round_half_even (m e : Z) : Z :=
  if 0 <=? e then m * 2 ^ e
  else
    let d := 2 ^ (- e) in
    let q := m / d in
    match 2 * (m mod d) ?= d with
    | Lt => q
    | Gt => q + 1
    | Eq => if Z.even q then q else q + 1
    end.

Definition Z2SF (n : Z) : spec_float :=
  match n with
  | Z0 => S754_zero false
  | Zpos p => S754_finite false p 0
  | Zneg p => S754_finite true p 0
  end.

(** [round(x, 1)]: the exact value of [x] is rounded to the nearest tenth
    (ties to even), and the result is the double nearest to that decimal. *)
Definition round1 (x : float) : float :=
  match Prim2SF x with
  | S754_finite s m e =>
      let tenths := round_half_even (10 * Zpos m) e in
      let r := SF2Prim (SFdiv prec emax (Z2SF tenths) (Z2SF 10)) in
      if s then (- r)%float else r
  | _ => x
  end.

(* ================================================================== *)
(** ** Module-level constants *)

Definition WIDTH : Z := 1000.
Definition HEIGHT : Z := 800.
Definition TARGET_INCREMENT : Z := 3000.
Definition TARGET_PADDING : Z := 30.
Definition LIVES : Z := 3.
Definition TOP_BAR_HEIGHT : Z := 50.

(* ================================================================== *)
(** ** Painting *)

(** A colour: a name pygame knows, or its three components. *)
Inductive colour : Type :=
| named (name : string)
| rgb (r g b : Z).

(** The calls that paint on the window, with their arguments: pygame
    does the painting, in the order of the calls. *)
Inductive paint : Type :=
| fill (c : colour)
| circle (c : colour) (center : Z * Z) (radius : float).

Definition BG_COLOR : colour := rgb 0 25 40.

(* ================================================================== *)
(** ** class Target *)

Module Target.

Definition MAX_SIZE : float := 30%float.
(** [0.2], that is the double [0x1.999999999999ap-3]. *)
Definition GROWTH_RATE : float := 0x1.999999999999ap-3%float.

(** [ident] stands for the identity of the Python object: the class
    defines no [__eq__], so [list.remove] finds a target by identity. *)
Record t : Type := mk {
  ident : nat;
  x : Z;
  y : Z;
  size : float;
  growth : bool
}.

(** [Target(x, y)]; [size = 0] and [float 0] compare and add alike. *)
Definition init (id : nat) (x y : Z) : t := mk id x y 0%float true.

Definition update (self : t) : t :=
  let growth' :=
    if (MAX_SIZE <=? size self + GROWTH_RATE)%float then false
    else growth self in
  let size' :=
    if growth' then (size self + GROWTH_RATE)%float
    else (size self - GROWTH_RATE)%float in
  mk (ident self) (x self) (y self) size' growth'.

Definition collide (self : t) (px py : Z) : bool :=
  let dis := PrimFloat.sqrt (float_of_int ((x self - px) ^ 2 + (y self - py) ^ 2)) in
  (dis <=? size self)%float.

Definition COLOR : colour := named "red".
Definition SECOND_COLOR : colour := named "white".

(** [draw(self, win)]: four circles on the same centre; [0.8], [0.6] and
    [0.4] are the doubles nearest to them. *)
Definition draw (self : t) : list paint :=
  [circle COLOR (x self, y self) (size self);
   circle SECOND_COLOR (x self, y self) (size self * 0x1.999999999999ap-1)%float;
   circle COLOR (x self, y self) (size self * 0x1.3333333333333p-1)%float;
   circle SECOND_COLOR (x self, y self) (size self * 0x1.999999999999ap-2)%float].

End Target.

(* ================================================================== *)
(** ** The game loop *)

(** Events of [pygame.event.get()].  A [TARGET_EVENT] is listed with the
    two raw numbers the random generator yields while it is handled. *)
Inductive event : Type :=
| QUIT
| TARGET_EVENT (rx ry : Z)
| MOUSEBUTTONDOWN
| KEYDOWN
| OTHER.

(** What one iteration of a loop reads from its environment: the clock
    ([time.time()]), the pointer and the pending events. *)
Record frame : Type := mkFrame {
  now : float;
  mouse_pos : Z * Z;
  events : list event
}.

(** The locals of [main] that live across iterations; [fresh] is the
    identity the next constructed target gets. *)
Record game : Type := mkGame {
  targets : list Target.t;
  targets_pressed : Z;
  clicks : Z;
  misses : Z;
  start_time : float;
  fresh : nat
}.

Definition init_game (t0 : float) : game := mkGame [] 0 0 0 t0 0.

(** [random.randint(a, b)]: [a] plus a number below [b - a + 1], here the
    raw draw reduced to that range. *)
Definition randint (a b raw : Z) : Z := a + raw mod (b - a + 1).

Definition spawn (rx ry : Z) (g : game) : game :=
  let x := randint TARGET_PADDING (WIDTH - TARGET_PADDING) rx in
  let y := randint (TARGET_PADDING + TOP_BAR_HEIGHT) (HEIGHT - TARGET_PADDING) ry in
  let target := Target.init (fresh g) x y in
  mkGame (targets g ++ [target]) (targets_pressed g) (clicks g) (misses g)
         (start_time g) (S (fresh g)).

(** The [for event in pygame.event.get()] loop: the answer is
    [(run, click, locals)]; [QUIT] leaves the loop at once. *)
Fixpoint handle_events (evs : list event) (click : bool) (g : game)
  : bool * bool * game :=
  match evs with
  | [] => (true, click, g)
  | QUIT :: _ => (false, click, g)
  | TARGET_EVENT rx ry :: evs' => handle_events evs' click (spawn rx ry g)
  | MOUSEBUTTONDOWN :: evs' =>
      handle_events evs' true
        (mkGame (targets g) (targets_pressed g) (clicks g + 1) (misses g)
                (start_time g) (fresh g))
  | _ :: evs' => handle_events evs' click g
  end.

(** [targets.remove(target)]: drops the first element that is the object
    [target]; [ValueError] when it is not in the list. *)
Fixpoint list_remove (target : Target.t) (l : list Target.t)
  : res (list Target.t) :=
  match l with
  | [] => Raise ValueError
  | t :: l' =>
      if Nat.eqb (Target.ident t) (Target.ident target) then Ok l'
      else let! l'' := list_remove target l' in Ok (t :: l'')
  end.

Definition set_targets (l : list Target.t) (g : game) : game :=
  mkGame l (targets_pressed g) (clicks g) (misses g) (start_time g) (fresh g).

(** The body of [for target in targets] for the element at index [i]. *)
Definition visit (i : nat) (target : Target.t) (click : bool)
    (pos : Z * Z) (g : game) : res game :=
  let target := Target.update target in
  (* the object is mutated in place: the list sees the new state *)
  let g := set_targets (<[i := target]> (targets g)) g in
  let! g :=
    (if (Target.size target <=? 0)%float then
       let! l := list_remove target (targets g) in
       Ok (mkGame l (targets_pressed g) (clicks g) (misses g + 1)
                  (start_time g) (fresh g))
     else Ok g) in
  if click && Target.collide target pos.1 pos.2 then
    let! l := list_remove target (targets g) in
    Ok (mkGame l (targets_pressed g + 1) (clicks g) (misses g)
               (start_time g) (fresh g))
  else Ok g.

(** [for target in targets: ...] with the list iterator of CPython: it
    holds an index into the list, reads the element at that index if there
    is one, and advances by one, whatever the body did to the list. *)
Fixpoint for_targets (fuel i : nat) (click : bool) (pos : Z * Z) (g : game)
  : res game :=
  match targets g !! i with
  | None => Ok g
  | Some target =>
      match fuel with
      | O => OutOfFuel
      | S fuel' =>
          let! g' := visit i target click pos g in
          for_targets fuel' (S i) click pos g'
      end
  end.

(** The numbers of the top bar: [speed] and the lives left.  The time
    label of line 144 is [format_time], modelled further down, applied
    to the elapsed time; its conversions raise [ValueError], before the
    division, for an elapsed time that is not finite or too large to be
    multiplied by 1000.  That call is left out here: what follows is
    about clock readings that are finite numbers. *)
Definition draw_top_bar (elapsed_time : float) (targets_pressed misses : Z)
  : res (float * Z) :=
  let! q := truediv_int_float targets_pressed elapsed_time in
  Ok (round1 q, LIVES - misses).

(** The numbers of the end screen. *)
Record summary : Type := mkSummary {
  sum_time : float;
  sum_speed : float;
  sum_hits : Z;
  sum_accuracy : float
}.

Definition accuracy (targets_pressed clicks : Z) : res float :=
  let! q := truediv_int_int targets_pressed clicks in
  Ok (round1 (q * 100)%float).

(** [end_screen] up to [pygame.display.update()]: the labels are computed,
    then shown.  The time label of line 166, [format_time] of the elapsed
    time, is left out as in [draw_top_bar]. *)
Definition end_screen (elapsed_time : float) (targets_pressed clicks : Z)
  : res summary :=
  let! q := truediv_int_float targets_pressed elapsed_time in
  let! a := accuracy targets_pressed clicks in
  Ok (mkSummary elapsed_time (round1 q) targets_pressed a).

(** How an iteration of [while run] ends: the loop goes on, [end_screen]
    is showing the summary and waits, or the process has ended
    ([pygame.quit()], [quit()]). *)
Inductive outcome : Type :=
| Running (g : game)
| Ended (s : summary)
| Exited.

Definition elapsed (f : frame) (g : game) : float :=
  (now f - start_time g)%float.

(** One iteration of [while run] in [main]. *)
Definition main_tick (f : frame) (g : game) : res outcome :=
  let elapsed_time := elapsed f g in
  let '(run, click, g) := handle_events (events f) false g in
  let! g := for_targets (length (targets g)) 0 click (mouse_pos f) g in
  if LIVES <=? misses g then
    let! s := end_screen elapsed_time (targets_pressed g) (clicks g) in
    Ok (Ended s)
  else
    let! _ := draw_top_bar elapsed_time (targets_pressed g) (misses g) in
    Ok (if run then Running g else Exited).

(** The [while run] loop of [end_screen]: it polls the events and leaves
    the process on [QUIT] or a key. *)
Definition leaves (evs : list event) : bool :=
  existsb (fun e => match e with QUIT | KEYDOWN => true | _ => false end) evs.

Fixpoint end_screen_wait (s : summary) (fs : list frame) : outcome :=
  match fs with
  | [] => Ended s
  | f :: fs' => if leaves (events f) then Exited else end_screen_wait s fs'
  end.

(** The loop of [main] over the frames the environment supplies. *)
Fixpoint main_loop (fs : list frame) (g : game) : res outcome :=
  match fs with
  | [] => Ok (Running g)
  | f :: fs' =>
      let! o := main_tick f g in
      match o with
      | Running g' => main_loop fs' g'
      | Ended s => Ok (end_screen_wait s fs')
      | Exited => Ok Exited
      end
  end.

(** [main()]: [t0] is the clock read into [start_time]. *)
Definition main (t0 : float) (fs : list frame) : res outcome :=
  main_loop fs (init_game t0).

(** The states of the running loop a session can be in. *)
Definition reachable (g : game) : Prop :=
  exists t0 fs, main t0 fs = Ok (Running g).

(* ================================================================== *)
(** ** The life of a target *)

(** [update] as a function of the two fields it reads and writes. *)
Definition grow (p : float * bool) : float * bool :=
  let growth' :=
    if (Target.MAX_SIZE <=? p.1 + Target.GROWTH_RATE)%float then false
    else p.2 in
  (if growth' then (p.1 + Target.GROWTH_RATE)%float
   else (p.1 - Target.GROWTH_RATE)%float, growth').

(** Radius and flag of a target after [k] updates. *)
Definition track (k : nat) : float * bool := Nat.iter k grow (0%float, true).

(** The number of the update that takes the radius to zero or below. *)
Definition LIFETIME : nat := 300.
(** The number of the update that clears the flag. *)
Definition TURN : nat := 151.

(** The target has been updated [k] times since it was constructed. *)
Definition updated (k : nat) (t : Target.t) : Prop :=
  (Target.size t, Target.growth t) = track k.

(** A target that is still to reach the end of its life. *)
Definition alive (t : Target.t) : Prop :=
  exists k, (k < LIFETIME)%nat /\ updated k t.

Definition radius_in_range (t : Target.t) : Prop :=
  (0 <=? Target.size t)%float = true /\
  (Target.size t <=? Target.MAX_SIZE)%float = true.

Definition in_play_area (t : Target.t) : Prop :=
  TARGET_PADDING <= Target.x t <= WIDTH - TARGET_PADDING /\
  TARGET_PADDING + TOP_BAR_HEIGHT <= Target.y t <= HEIGHT - TARGET_PADDING.

(** What every state of the running loop satisfies. *)
Record invariant (g : game) : Prop := mkInv {
  inv_alive : Forall alive (targets g);
  inv_area : Forall in_play_area (targets g);
  inv_nodup : NoDup (Target.ident <$> targets g);
  inv_fresh : Forall (fun t => (Target.ident t < fresh g)%nat) (targets g)
}.

(** What [visit] does to the locals when the targets have distinct
    identities: the target is updated, then kept, dropped as a miss or
    dropped as a hit. *)
Inductive visited (i : nat) (t : Target.t) (click : bool) (pos : Z * Z)
    (g : game) : game -> Prop :=
| visited_kept :
    (Target.size (Target.update t) <=? 0)%float = false ->
    click && Target.collide (Target.update t) pos.1 pos.2 = false ->
    visited i t click pos g
      (mkGame (<[i := Target.update t]> (targets g)) (targets_pressed g)
              (clicks g) (misses g) (start_time g) (fresh g))
| visited_missed :
    (Target.size (Target.update t) <=? 0)%float = true ->
    click && Target.collide (Target.update t) pos.1 pos.2 = false ->
    visited i t click pos g
      (mkGame (delete i (targets g)) (targets_pressed g)
              (clicks g) (misses g + 1) (start_time g) (fresh g))
| visited_hit :
    (Target.size (Target.update t) <=? 0)%float = false ->
    click && Target.collide (Target.update t) pos.1 pos.2 = true ->
    visited i t click pos g
      (mkGame (delete i (targets g)) (targets_pressed g + 1)
              (clicks g) (misses g) (start_time g) (fresh g)).

(** [P k] for every [k] below [n], as a computation. *)
Definition below (n : nat) (P : nat -> bool) : bool := forallb P (seq 0 n).

(** Every target of [l'] is a target of [l] (same object, same centre)
    unless it was constructed with an identity from [n] on. *)
Definition descends (n : nat) (l l' : list Target.t) : Prop :=
  forall t', t' ∈ l' ->
    (n <= Target.ident t')%nat \/
    exists t, t ∈ l /\ Target.ident t = Target.ident t' /\
              Target.x t = Target.x t' /\ Target.y t = Target.y t'.

(* ================================================================== *)
(** ** Distances *)

(** The real number a finite double stands for. *)
Definition float_value (f : float) : R :=
  match Prim2SF f with
  | S754_finite s m e =>
      ((if s then -1 else 1) * (IZR (Zpos m) * powerRZ 2 e))%R
  | _ => 0%R
  end.

Definition is_finite (f : float) : bool :=
  match Prim2SF f with
  | S754_zero _ | S754_finite _ _ _ => true
  | _ => false
  end.

(** The square of the distance from a point to the centre of a target,
    and the Euclidean distance itself. *)
Definition sq_distance (t : Target.t) (px py : Z) : Z :=
  (Target.x t - px) ^ 2 + (Target.y t - py) ^ 2.

Definition distance (t : Target.t) (px py : Z) : R :=
  R_sqrt.sqrt (IZR (sq_distance t px py)).

(** The largest integer whose square root is at most the finite double
    [f]; [-1] when there is none. *)
Definition sq_floor (f : float) : Z :=
  match Prim2SF f with
  | S754_zero _ => 0
  | S754_finite false m e =>
      if 0 <=? e then (Zpos m * 2 ^ e) ^ 2
      else Zpos m ^ 2 / (2 ^ (- e)) ^ 2
  | _ => -1
  end.

(** [P n] for every [n] from [lo] up to [lo + 2^k - 1], as a computation. *)
Fixpoint range_all (k : nat) (lo : Z) (P : Z -> bool) : bool :=
  match k with
  | O => P lo
  | S k' => range_all k' lo P && range_all k' (lo + 2 ^ Z.of_nat k') P
  end.

(** [math.sqrt(n)] for a small [int], through the machine integers. *)
Definition sqrt_small (n : Z) : float :=
  PrimFloat.sqrt (of_uint63 (Uint63.of_Z n)).

(** Squared distances below [NEAR] are compared with every radius of
    [track]; those from [NEAR] up to [NEAR + 2^21 - 1] with [MAX_SIZE]. *)
Definition NEAR : Z := 1024.
Definition FAR : Z := NEAR + 2 ^ 21.

(* ================================================================== *)
(** ** Sessions *)

(** [clock.tick(60)]: sixty frames a second; frame [i] is read [i / 60]
    seconds after the start. *)
Definition FPS : Z := 60.

Definition frame_at (i : nat) (pos : Z * Z) (evs : list event) : frame :=
  mkFrame (float_of_int (Z.of_nat i) / float_of_int FPS)%float pos evs.

(** The timer fires every [TARGET_INCREMENT] milliseconds, that is every
    180 frames; the player of this session never presses a button. *)
Definition SPAWN_PERIOD : nat := Z.to_nat (TARGET_INCREMENT * FPS / 1000).

Definition idle_frame (i : nat) : frame :=
  frame_at i (0, 0)
    (if Nat.eqb (i mod SPAWN_PERIOD) 0 then [TARGET_EVENT 0 0] else []).

Definition idle_session (n : nat) : list frame := map idle_frame (seq 1 n).

(** The locals of [main] after 839 frames of that session. *)
Definition last_life : game :=
  Eval vm_compute in
    match main 0 (idle_session 839) with
    | Ok (Running g) => g
    | _ => init_game 0
    end.

(** Two targets one pixel apart, the second spawned three seconds after
    the first, and a press on the centre of the second in the next frame. *)
Definition two_targets : list frame :=
  map (fun i => frame_at i (0, 0)
                  (if Nat.eqb i SPAWN_PERIOD then [TARGET_EVENT 0 0]
                   else if Nat.eqb i (2 * SPAWN_PERIOD) then [TARGET_EVENT 1 0]
                   else []))
      (seq 1 (2 * SPAWN_PERIOD)).

Definition press : frame := frame_at 361 (31, 80) [MOUSEBUTTONDOWN].

Definition before_press : game :=
  Eval vm_compute in
    match main 0 two_targets with
    | Ok (Running g) => g
    | _ => init_game 0
    end.

Definition after_press : game :=
  Eval vm_compute in
    match main_tick press before_press with
    | Ok (Running g) => g
    | _ => init_game 0
    end.

(** A session like [idle_session] with one press, on no target, in its
    first frame; the locals after 838 and after 839 frames of it. *)
Definition one_press_frame (i : nat) : frame :=
  frame_at i (0, 0)
    ((if Nat.eqb i 1 then [MOUSEBUTTONDOWN] else [])
     ++ (if Nat.eqb (i mod SPAWN_PERIOD) 0 then [TARGET_EVENT 0 0] else [])).

Definition one_press_session (n : nat) : list frame :=
  map one_press_frame (seq 1 n).

Definition two_lives_lost : game :=
  Eval vm_compute in
    match main 0 (one_press_session 838) with
    | Ok (Running g) => g
    | _ => init_game 0
    end.

Definition before_third_miss : game :=
  Eval vm_compute in
    match main_tick (one_press_frame 839) two_lives_lost with
    | Ok (Running g) => g
    | _ => init_game 0
    end.

(** Frame 840 of that session, read from a clock that was set back to
    three seconds after the start, and the summary it leads to. *)
Definition clock_set_back : frame := mkFrame 3%float (0, 0) [].

Definition late_summary : summary := mkSummary 3%float 0%float 0 0%float.

(** What an iteration that answered [o] did with the elapsed time [t]:
    it computed the top bar from [t] and the counters it left, or it
    computed the summary from [t] and shows [t] as its time. *)
Definition shown_with (t : float) (o : outcome) : Prop :=
  match o with
  | Running g =>
      exists speed,
        draw_top_bar t (targets_pressed g) (misses g)
        = Ok (speed, LIVES - misses g)
  | Ended s =>
      sum_time s = t /\
      exists hits clicks, end_screen t hits clicks = Ok s
  | Exited => True
  end.

(** A pointer position inside the window. *)
Definition on_screen (pos : Z * Z) : Prop :=
  0 <= pos.1 <= WIDTH /\ 0 <= pos.2 <= HEIGHT.

(** A target after its first update. *)
Definition young_target : Target.t := Target.update (Target.init 0 30 80).

(** A target with the double nearest to the square root of 13 as its
    radius; no target of the game has it. *)
Definition odd_target : Target.t :=
  Target.mk 0 0 0 0x1.cd82b446159f3p+1%float true.

Ltac compare_cases :=
  repeat match goal with
  | |- context [Pos.compare_cont Eq ?a ?b] =>
      change (Pos.compare_cont Eq a b) with (Pos.compare a b)
  end;
  repeat match goal with
  | |- context [Z.compare ?a ?b] => destruct (Z.compare_spec a b)
  | |- context [Pos.compare ?a ?b] => destruct (Pos.compare_spec a b)
  end;
  simpl; intros; subst; try reflexivity; try discriminate; try lia.

(* ================================================================== *)
(** ** Events and bookkeeping *)

Definition is_press (e : event) : bool :=
  match e with MOUSEBUTTONDOWN => true | _ => false end.

Definition is_spawn (e : event) : bool :=
  match e with TARGET_EVENT _ _ => true | _ => false end.

Definition is_quit (e : event) : bool :=
  match e with QUIT => true | _ => false end.

(** How many events of a list satisfy [p]. *)
Fixpoint count_events (p : event -> bool) (evs : list event) : Z :=
  match evs with
  | [] => 0
  | e :: evs' => (if p e then 1 else 0) + count_events p evs'
  end.

(** The events of a run of frames, in the order they are handled. *)
Definition all_events (fs : list frame) : list event :=
  concat (map events fs).

(** Every target constructed so far is in the list, hit or missed. *)
Definition accounted (g : game) : Prop :=
  Z.of_nat (fresh g)
  = Z.of_nat (length (targets g)) + targets_pressed g + misses g.

(** A target that was updated [j] times at most. *)
Definition aged (j : nat) (t : Target.t) : Prop :=
  exists k, (k <= j)%nat /\ updated k t.

(** In the middle of the sweep of iteration [j + 1]: the targets before
    index [i] were visited or skipped, the others are still to visit. *)
Definition sweeping (j i : nat) (l : list Target.t) : Prop :=
  forall i' t, l !! i' = Some t ->
    aged (if (i' <? i)%nat then S j else j) t.

(** After its update the target is still alive and the point is within
    its radius. *)
Definition within_reach (pos : Z * Z) (t : Target.t) : Prop :=
  (Target.size (Target.update t) <=? 0)%float = false /\
  Target.collide (Target.update t) pos.1 pos.2 = true.

(** A frame with no event, one frame after [two_targets], and the locals
    after it. *)
Definition quiet : frame := frame_at 361 (0, 0) [].

Definition after_quiet : game :=
  Eval vm_compute in
    match main_tick quiet before_press with
    | Ok (Running g) => g
    | _ => init_game 0
    end.

(** The locals after 299 frames of the session without a press. *)
Definition first_seconds : game :=
  Eval vm_compute in
    match main 0 (idle_session 299) with
    | Ok (Running g) => g
    | _ => init_game 0
    end.

(** Three timer events handled in one frame (the loop was held up for
    nine seconds), the three targets on the same spot, then one press on
    that spot in the next frame. *)
Definition burst : frame :=
  frame_at 540 (0, 0) [TARGET_EVENT 0 0; TARGET_EVENT 0 0; TARGET_EVENT 0 0].

Definition burst_press : frame := frame_at 541 (30, 80) [MOUSEBUTTONDOWN].

Definition stacked : game :=
  Eval vm_compute in
    match main 0 [burst] with
    | Ok (Running g) => g
    | _ => init_game 0
    end.

Definition after_burst : game :=
  Eval vm_compute in
    match main_tick burst_press stacked with
    | Ok (Running g) => g
    | _ => init_game 0
    end.

(** The first frame, read before the clock has moved on from
    [start_time]. *)
Definition same_instant : frame := mkFrame 0%float (0, 0) [].

(** The collection is in the order of construction. *)
Definition in_spawn_order (g : game) : Prop :=
  StronglySorted lt (Target.ident <$> targets g).

(* ================================================================== *)
(** ** What is painted *)

(** [draw(win, targets)]. *)
Definition draw (targets : list Target.t) : list paint :=
  fill BG_COLOR :: flat_map Target.draw targets.

(** The exact value of a double as a fraction with a positive
    denominator ([0] for what is not a finite number). *)
Definition ratio (f : float) : Z * Z :=
  match Prim2SF f with
  | S754_finite s m e =>
      let n := if s then Zneg m else Zpos m in
      if 0 <=? e then (n * 2 ^ e, 1) else (n, 2 ^ (- e))
  | _ => (0, 1)
  end.

(** The radius is a number between [0] and [TARGET_PADDING]. *)
Definition ring_fits (r : float) : bool :=
  is_finite r && (0 <=? (ratio r).1)
  && ((ratio r).1 <=? TARGET_PADDING * (ratio r).2).

Definition rings_fit (ps : list paint) : bool :=
  forallb (fun p => match p with
                    | circle _ _ r => ring_fits r
                    | fill _ => true
                    end) ps.

(** Each circle is smaller than the one painted before it, and the last
    one has a positive radius. *)
Fixpoint rings_shrink (outer : option float) (ps : list paint) : bool :=
  match ps with
  | [] => match outer with Some r => (0 <? r)%float | None => true end
  | circle _ _ r :: ps' =>
      match outer with Some r0 => (r <? r0)%float | None => true end
      && rings_shrink (Some r) ps'
  | fill _ :: _ => false
  end.

(** A target with the radius and flag of [track k]. *)
Definition target_at (k : nat) (id : nat) (x y : Z) : Target.t :=
  Target.mk id x y (track k).1 (track k).2.

(** [get_middle(surface)], from the width of the surface. *)
Definition get_middle (width : Z) : res float :=
  let! a := truediv_int_int WIDTH 2 in
  let! b := truediv_int_int width 2 in
  Ok (a - b)%float.

(** The same number through the machine integers, with what makes the
    label centred: twice the number and the width make [WIDTH]. *)
Definition centred (width : Z) : bool :=
  let m := (of_uint63 (Uint63.of_Z WIDTH) / of_uint63 (Uint63.of_Z 2)
            - of_uint63 (Uint63.of_Z width) / of_uint63 (Uint63.of_Z 2))%float in
  is_finite m
  && (2 * (ratio m).1 + width * (ratio m).2 =? WIDTH * (ratio m).2).

(* ================================================================== *)
(** ** The time label *)

(** What [int(x)] and [math.floor(x)] raise when the double [x] is not a
    number ([ValueError]) or is an infinity ([OverflowError]). *)
Inductive conversion_error : Type :=
| of_nan
| of_infinity.

Definition and_then {A B : Type} (m : conversion_error + A)
    (k : A -> conversion_error + B) : conversion_error + B :=
  match m with
  | inl e => inl e
  | inr a => k a
  end.

Definition signed (s : bool) (m : positive) : Z :=
  if s then Zneg m else Zpos m.

(** [int(x)]: the integer part, towards zero. *)
Definition int_of_float (x : float) : conversion_error + Z :=
  match Prim2SF x with
  | S754_zero _ => inr 0
  | S754_finite s m e =>
      inr (if 0 <=? e then signed s m * 2 ^ e
           else Z.quot (signed s m) (2 ^ (- e)))
  | S754_infinity _ => inl of_infinity
  | S754_nan => inl of_nan
  end.

(** [math.floor(x)]: the largest integer that is at most [x]. *)
Definition math_floor (x : float) : conversion_error + Z :=
  match Prim2SF x with
  | S754_zero _ => inr 0
  | S754_finite s m e =>
      inr (if 0 <=? e then signed s m * 2 ^ e
           else signed s m / 2 ^ (- e))
  | S754_infinity _ => inl of_infinity
  | S754_nan => inl of_nan
  end.

(** The C function [fmod]: [x] minus the multiple of [y] that the
    quotient, cut towards zero, gives; the result is exact and has the
    sign of [x]. *)
Definition fmod (x y : float) : float :=
  match Prim2SF x, Prim2SF y with
  | S754_nan, _ | _, S754_nan | S754_infinity _, _ | _, S754_zero _ => nan
  | S754_zero _, _ => x
  | S754_finite _ _ _, S754_infinity _ => x
  | S754_finite sx mx ex, S754_finite _ my ey =>
      let e := Z.min ex ey in
      let r := Z.rem (Zpos mx * 2 ^ (ex - e)) (Zpos my * 2 ^ (ey - e)) in
      SF2Prim (binary_normalize prec emax (if sx then - r else r) e sx)
  end.

(** The C function [floor], on doubles. *)
Definition floor (x : float) : float :=
  match Prim2SF x with
  | S754_finite s m e =>
      if 0 <=? e then x else float_of_int (signed s m / 2 ^ (- e))
  | _ => x
  end.

(** [v % w] for doubles, as CPython computes it, for a divisor that is
    not zero (the divisors of the script are [1000] and [60]): [fmod],
    then the sign of the divisor. *)
Definition float_mod (v w : float) : float :=
  let m := fmod v w in
  if (m =? 0)%float then (if (w <? 0)%float then neg_zero else zero)
  else if xorb (w <? 0)%float (m <? 0)%float then (m + w)%float
  else m.

(** [v // w] for doubles, as CPython computes it, for a divisor that is
    not zero. *)
Definition float_floordiv (v w : float) : float :=
  let m := fmod v w in
  let div := ((v - m) / w)%float in
  let div :=
    if negb (m =? 0)%float && xorb (w <? 0)%float (m <? 0)%float
    then (div - 1)%float else div in
  if (div =? 0)%float then (if get_sign (v / w) then neg_zero else zero)
  else
    let f := floor div in
    if (0x1p-1 <? div - f)%float then (f + 1)%float else f.

(** [str(n)] for an [int]. *)
Definition decimal (n : Z) : string := NilZero.string_of_int (Z.to_int n).

(** The format [02d]: two characters at least, zeros in front. *)
Definition format_02d (n : Z) : string :=
  if (0 <=? n) && (n <? 10) then "0" +:+ decimal n else decimal n.

(** The three numbers of [format_time], in the order they are computed:
    [milli], [seconds], [minutes]. *)
Definition time_fields (secs : float) : conversion_error + (Z * Z * Z) :=
  and_then (int_of_float (float_mod (secs * 1000) 1000)) (fun thousandths =>
  and_then (math_floor (float_of_int thousandths / 100)) (fun milli =>
  and_then (int_of_float (round1 (float_mod secs 60))) (fun seconds =>
  and_then (int_of_float (float_floordiv secs 60)) (fun minutes =>
  inr (milli, seconds, minutes))))).

Definition format_time (secs : float) : conversion_error + string :=
  and_then (time_fields secs) (fun '(milli, seconds, minutes) =>
  inr (format_02d minutes +:+ ":" +:+ format_02d seconds +:+ ":"
       +:+ decimal milli)).

(** The clock reading of frame [i] of a session at [FPS] frames a
    second, as [frame_at] has it. *)
Definition frame_time (i : Z) : float :=
  (float_of_int i / float_of_int FPS)%float.

(** What the label shows for frame [i]: the minutes; the seconds, or
    one more in the last three frames of a second (always in the last
    two); the tenths, or one less where the time is a whole number of
    tenths. *)
Definition fields_of_frame (i : Z) (f : Z * Z * Z) : bool :=
  let '(milli, seconds, minutes) := f in
  let ph := i mod 60 in
  let s0 := (i mod 3600) / 60 in
  let d0 := ph / 6 in
  (minutes =? i / 3600)
  && (if ph <=? 56 then seconds =? s0
      else if 58 <=? ph then seconds =? s0 + 1
      else (seconds =? s0) || (seconds =? s0 + 1))
  && ((milli =? d0) || ((milli =? d0 - 1) && (ph mod 6 =? 0) && (0 <? ph))).

Definition frame_checked (i : Z) : bool :=
  match time_fields (of_uint63 (Uint63.of_Z i)
                     / of_uint63 (Uint63.of_Z FPS))%float with
  | inr f => fields_of_frame i f
  | inl _ => false
  end.

(** The label of a whole number of seconds, through the machine
    integers, against the minutes and seconds of that number. *)
Definition second_checked (n : Z) : bool :=
  match format_time (of_uint63 (Uint63.of_Z n)) with
  | inr l =>
      String.eqb l (format_02d (n / 60) +:+ ":" +:+ format_02d (n mod 60)
                    +:+ ":0")
  | inl _ => false
  end.

(** Centre and radius of the first circle painted for [before_press]. *)
Definition outer_ring : Z * Z * float :=
  Eval vm_compute in
    match targets before_press with
    | t :: _ => (Target.x t, Target.y t, Target.size t)
    | [] => (0, 0, 0%float)
    end.

(* ================================================================== *)
(** ** Doubles as whole numbers of units *)

(** The value of the double in units of [2^emin], the spacing of the
    smallest doubles: an integer. *)
Definition units (x : spec_float) : Z :=
  match x with
  | S754_finite s m e =>
      (if s then -1 else 1) * (Zpos m * 2 ^ (e - emin))
  | _ => 0
  end.

(** [m / 2^k] rounded to the nearest integer, ties to the even one. *)
Definition rne (m k : Z) : Z :=
  let q := m / 2 ^ k in
  let r := m mod 2 ^ k in
  let h := 2 ^ (k - 1) in
  if r <? h then q
  else if h <? r then q + 1
  else if Z.even q then q else q + 1.

(** The number of binary digits of a positive integer. *)
Definition bits (v : Z) : Z := Z.log2 v + 1.

(** A positive number of units rounded to 53 digits: mantissa and
    exponent (in units). *)
Definition round53 (v : Z) : Z * Z :=
  if bits v <=? prec then (v, 0)
  else
    let k := bits v - prec in
    let m := rne v k in
    if m =? 2 ^ prec then (2 ^ (prec - 1), k + 1) else (m, k).

(** The double with that sign, mantissa and exponent; an infinity beyond
    the largest exponent. *)
Definition to_sf (s : bool) (me : Z * Z) : spec_float :=
  if me.2 + emin <=? emax - prec
  then S754_finite s (Z.to_pos me.1) (me.2 + emin)
  else S754_infinity s.

(** The double nearest to a number of units, positive, negative or zero;
    the sign of a zero is left open. *)
Definition rounds_to (d : Z) (x : spec_float) : Prop :=
  match d with
  | Z0 => exists s, x = S754_zero s
  | Zpos _ => x = to_sf false (round53 d)
  | Zneg _ => x = to_sf true (round53 (- d))
  end.

Ltac float_consts :=
  change (SpecFloat.emin prec emax) with (-1074) in *;
  change (SpecFloat.emin 53 1024) with (-1074) in *;
  change prec with 53 in *; change emax with 1024 in *.


(* ================================================================== *)
(** ** Bounded loops and the result monad *)

Lemma below_spec n P :
  below n P = true -> forall k, (k < n)%nat -> P k = true.
Proof.
  unfold below. intros H k Hk.
  eapply forallb_forall in H; [exact H|].
  apply in_seq. lia.
Qed.

Lemma bind_Ok {A B} (m : res A) (k : A -> res B) b :
  bind m k = Ok b -> exists a, m = Ok a /\ k a = Ok b.
Proof. destruct m; simpl; intros H; try discriminate. eauto. Qed.

(* ================================================================== *)
(** ** The numbers of Python, on examples *)

(** [round(0.25, 1) = 0.2]: a tie goes to the even tenth. *)
Example round1_tie : round1 0x1p-2 = 0x1.999999999999ap-3%float.
Proof. vm_compute. reflexivity. Qed.

(** [round(0.35, 1) = 0.3]: the double written [0.35] is below 0.35. *)
Example round1_below_tie :
  round1 0x1.6666666666666p-2 = 0x1.3333333333333p-2%float.
Proof. vm_compute. reflexivity. Qed.

(** [round(1 / 3 * 100, 1) = 33.3]. *)
Example accuracy_one_in_three : accuracy 1 3 = Ok 0x1.0a66666666666p+5%float.
Proof. vm_compute. reflexivity. Qed.

(** [float(2**53 + 1) = 9007199254740992.0]. *)
Example float_of_int_rounds : float_of_int (2 ^ 53 + 1) = 0x1p+53%float.
Proof. vm_compute. reflexivity. Qed.

(* ================================================================== *)
(** ** [list.remove] *)

Lemma list_remove_length t l l' :
  list_remove t l = Ok l' -> S (length l') = length l.
Proof.
  revert l'. induction l as [|a l IH]; simpl; intros l' H; [discriminate|].
  destruct (Nat.eqb _ _).
  - injection H as <-. reflexivity.
  - apply bind_Ok in H as (l'' & Hl & H). injection H as <-.
    simpl. f_equal. auto.
Qed.

Lemma list_remove_absent t l :
  Target.ident t ∉ Target.ident <$> l -> list_remove t l = Raise ValueError.
Proof.
  induction l as [|a l IH]; simpl; intros H; [reflexivity|].
  apply not_elem_of_cons in H as [Hne Hl].
  destruct (Nat.eqb_spec (Target.ident a) (Target.ident t)) as [E|_].
  - congruence.
  - rewrite IH by assumption. reflexivity.
Qed.

Lemma list_remove_at t' (l : list Target.t) (i : nat) t :
  NoDup (Target.ident <$> l) -> l !! i = Some t ->
  Target.ident t' = Target.ident t ->
  list_remove t' (<[i:=t']> l) = Ok (delete i l).
Proof.
  revert i. induction l as [|a l IH]; intros i Hnd Hi Hid; [discriminate|].
  rewrite fmap_cons in Hnd. apply NoDup_cons in Hnd as [Ha Hnd].
  destruct i as [|i]; simpl in *.
  - rewrite Nat.eqb_refl. reflexivity.
  - destruct (Nat.eqb_spec (Target.ident a) (Target.ident t')) as [E|_].
    + exfalso. apply Ha. rewrite E, Hid.
      apply list_elem_of_fmap. exists t. split; [reflexivity|].
      eapply list_elem_of_lookup_2; eassumption.
    + rewrite (IH i) by assumption. reflexivity.
Qed.

Lemma idents_insert t' (l : list Target.t) (i : nat) t :
  l !! i = Some t -> Target.ident t' = Target.ident t ->
  Target.ident <$> <[i:=t']> l = Target.ident <$> l.
Proof.
  intros Hi Hid. rewrite list_fmap_insert, Hid.
  apply list_insert_id. rewrite list_lookup_fmap, Hi. reflexivity.
Qed.

Lemma idents_delete_absent (l : list Target.t) (i : nat) t :
  NoDup (Target.ident <$> l) -> l !! i = Some t ->
  Target.ident t ∉ Target.ident <$> delete i l.
Proof.
  revert i. induction l as [|a l IH]; intros i Hnd Hi; [discriminate|].
  rewrite fmap_cons in Hnd. apply NoDup_cons in Hnd as [Ha Hnd].
  destruct i as [|i]; simpl in *.
  - injection Hi as ->. exact Ha.
  - rewrite not_elem_of_cons. split; [|eauto].
    intros E. apply Ha. rewrite <- E.
    apply list_elem_of_fmap. exists t. split; [reflexivity|].
    eapply list_elem_of_lookup_2; eassumption.
Qed.

(* ================================================================== *)
(** ** The radius along the life of a target *)

Lemma grow_update t :
  (Target.size (Target.update t), Target.growth (Target.update t))
  = grow (Target.size t, Target.growth t).
Proof. reflexivity. Qed.

Lemma updated_init id x y : updated 0 (Target.init id x y).
Proof. reflexivity. Qed.

Lemma updated_update k t : updated k t -> updated (S k) (Target.update t).
Proof.
  unfold updated. intros H. rewrite grow_update, H. reflexivity.
Qed.

Lemma updated_iter k id x y :
  updated k (Nat.iter k Target.update (Target.init id x y)).
Proof.
  induction k as [|k IH]; [reflexivity|]. apply updated_update, IH.
Qed.

(** Before its last update a target has a radius between [0] and
    [MAX_SIZE]. *)
Lemma track_in_range k :
  (k < LIFETIME)%nat ->
  (0 <=? (track k).1)%float = true /\
  ((track k).1 <=? Target.MAX_SIZE)%float = true.
Proof.
  intros Hk. apply andb_true_iff. revert k Hk.
  apply (below_spec LIFETIME
           (fun k => (0 <=? (track k).1)%float
                     && ((track k).1 <=? Target.MAX_SIZE)%float)).
  vm_compute. reflexivity.
Qed.

(** The radius is positive after each update but the last. *)
Lemma track_positive k :
  (0 < k < LIFETIME)%nat -> ((track k).1 <=? 0)%float = false.
Proof.
  intros [H0 Hk].
  assert (H : negb ((track k).1 <=? 0)%float || Nat.eqb k 0 = true).
  { clear H0. revert k Hk.
    apply (below_spec LIFETIME
             (fun k => negb ((track k).1 <=? 0)%float || Nat.eqb k 0)).
    vm_compute. reflexivity. }
  apply orb_true_iff in H as [H|H].
  - apply negb_true_iff, H.
  - apply Nat.eqb_eq in H. lia.
Qed.

(** The last update takes it below zero. *)
Lemma track_expired : ((track LIFETIME).1 <=? 0)%float = true.
Proof. vm_compute. reflexivity. Qed.

Lemma track_ends_negative : ((track LIFETIME).1 <? 0)%float = true.
Proof. vm_compute. reflexivity. Qed.

Lemma alive_in_range t : alive t -> radius_in_range t.
Proof.
  intros (k & Hk & Hu). unfold radius_in_range.
  unfold updated in Hu.
  replace (Target.size t) with (track k).1 by (rewrite <- Hu; reflexivity).
  apply track_in_range, Hk.
Qed.

Lemma alive_update t :
  alive t -> (Target.size (Target.update t) <=? 0)%float = false ->
  alive (Target.update t).
Proof.
  intros (k & Hk & Hu) Hpos. exists (S k). split; [|apply updated_update, Hu].
  destruct (decide (S k = LIFETIME)) as [E|]; [|unfold LIFETIME in *; lia].
  apply updated_update in Hu. unfold updated in Hu.
  pose proof track_expired as Hx. rewrite <- E, <- Hu in Hx. cbn [fst] in Hx.
  congruence.
Qed.

(* ================================================================== *)
(** ** One target of the sweep *)

Lemma visit_visited i t click pos g g' :
  NoDup (Target.ident <$> targets g) -> targets g !! i = Some t ->
  visit i t click pos g = Ok g' -> visited i t click pos g g'.
Proof.
  intros Hnd Hi. unfold visit, set_targets. cbn [targets].
  assert (Hid : Target.ident (Target.update t) = Target.ident t) by reflexivity.
  destruct (Target.size (Target.update t) <=? 0)%float eqn:Hz.
  - rewrite (list_remove_at _ _ _ t) by assumption.
    cbn [bind targets targets_pressed clicks misses start_time fresh].
    destruct (click && _) eqn:Hc.
    + rewrite list_remove_absent; [discriminate|].
      rewrite Hid. apply idents_delete_absent; assumption.
    + intros [= <-]. apply visited_missed; assumption.
  - cbn [bind targets targets_pressed clicks misses start_time fresh].
    destruct (click && _) eqn:Hc.
    + rewrite (list_remove_at _ _ _ t) by assumption.
      cbn [bind]. intros [= <-]. apply visited_hit; assumption.
    + intros [= <-]. apply visited_kept; assumption.
Qed.

Lemma visited_invariant i t click pos g g' :
  invariant g -> targets g !! i = Some t ->
  visited i t click pos g g' -> invariant g'.
Proof.
  intros [Ha Hp Hn Hf] Hi Hv.
  assert (Hin : t ∈ targets g) by (eapply list_elem_of_lookup_2; eassumption).
  pose proof (proj1 (Forall_forall _ _) Ha _ Hin) as Hat.
  pose proof (proj1 (Forall_forall _ _) Hp _ Hin) as Hpt.
  pose proof (proj1 (Forall_forall _ _) Hf _ Hin) as Hft.
  destruct Hv as [Hz _|Hz _|Hz _]; split; cbn [targets fresh];
    try (apply Forall_delete; assumption);
    try (rewrite list_fmap_delete; eapply sublist_NoDup;
         [eassumption|apply sublist_delete]);
    try (apply Forall_insert; [assumption|]).
  - apply alive_update; assumption.
  - exact Hpt.
  - erewrite idents_insert; [assumption|eassumption|reflexivity].
  - exact Hft.

Qed.

(** What an iteration of the sweep leaves alone, whatever the list holds. *)
Lemma visit_counters i t click pos g g' :
  visit i t click pos g = Ok g' ->
  targets_pressed g <= targets_pressed g' /\
  clicks g' = clicks g /\
  misses g <= misses g' /\
  start_time g' = start_time g /\
  fresh g' = fresh g /\
  (length (targets g') <= length (targets g))%nat.
Proof.
  unfold visit, set_targets. cbn [targets].
  intros H. apply bind_Ok in H as (g1 & H1 & H2).
  assert (targets_pressed g1 = targets_pressed g /\ clicks g1 = clicks g /\
          misses g <= misses g1 /\ start_time g1 = start_time g /\
          fresh g1 = fresh g /\
          (length (targets g1) <= length (targets g))%nat) as (E1&E2&E3&E4&E5&E6).
  { destruct (Target.size _ <=? 0)%float.
    - apply bind_Ok in H1 as (l & Hl & [= <-]). cbn.
      apply list_remove_length in Hl. rewrite length_insert in Hl.
      repeat split; lia.
    - injection H1 as <-. cbn. rewrite length_insert.
      repeat split; lia. }
  destruct (click && _).
  - apply bind_Ok in H2 as (l & Hl & [= <-]). cbn.
    apply list_remove_length in Hl. repeat split; try congruence; lia.
  - injection H2 as <-. repeat split; try congruence; lia.
Qed.

Lemma list_remove_finishes t l : list_remove t l <> OutOfFuel.
Proof.
  induction l as [|a l IH]; simpl; [discriminate|].
  destruct (Nat.eqb _ _); [discriminate|].
  destruct (list_remove t l); simpl; congruence.
Qed.

Lemma visit_finishes i t click pos g : visit i t click pos g <> OutOfFuel.
Proof.
  unfold visit, set_targets. cbn [targets].
  destruct (Target.size _ <=? 0)%float.
  - destruct (list_remove _ _) eqn:Hr; cbn [bind]; try discriminate.
    + destruct (click && _); [|discriminate].
      cbn [targets].
      destruct (list_remove (Target.update t) a) eqn:Hr'; cbn [bind];
        try discriminate.
      exfalso. eapply list_remove_finishes, Hr'.
    + exfalso. eapply list_remove_finishes, Hr.
  - cbn [bind]. destruct (click && _); [|discriminate].
    destruct (list_remove _ _) eqn:Hr; cbn [bind]; try discriminate.
    exfalso. eapply list_remove_finishes, Hr.
Qed.

(** The sweep ends because the iterator runs past the end of the list:
    the bound [length targets] on its iterations is never reached. *)
Lemma for_targets_total fuel i click pos g :
  (length (targets g) <= i + fuel)%nat ->
  for_targets fuel i click pos g <> OutOfFuel.
Proof.
  revert i g. induction fuel as [|fuel IH]; intros i g Hlen; simpl.
  - destruct (targets g !! i) eqn:Hi; [|discriminate].
    apply lookup_lt_Some in Hi. lia.
  - destruct (targets g !! i) eqn:Hi; [|discriminate].
    destruct (visit i t click pos g) as [g'| |] eqn:Hv; simpl; try discriminate.
    + apply IH. apply visit_counters in Hv. lia.
    + exfalso. eapply visit_finishes, Hv.
Qed.

Lemma for_targets_invariant fuel i click pos g g' :
  invariant g -> for_targets fuel i click pos g = Ok g' -> invariant g'.
Proof.
  revert i g. induction fuel as [|fuel IH]; intros i g Hinv; simpl.
  - destruct (targets g !! i); [discriminate|]. intros [= <-]. exact Hinv.
  - destruct (targets g !! i) eqn:Hi; [|intros [= <-]; exact Hinv].
    intros H. apply bind_Ok in H as (g1 & Hv & H).
    eapply IH; [|exact H].
    eapply visited_invariant; [exact Hinv|exact Hi|].
    apply visit_visited; [apply Hinv|exact Hi|exact Hv].
Qed.

(** The counters across the sweep. *)
Lemma for_targets_counters fuel i click pos g g' :
  for_targets fuel i click pos g = Ok g' ->
  targets_pressed g <= targets_pressed g' /\
  clicks g' = clicks g /\
  misses g <= misses g' /\
  start_time g' = start_time g /\
  fresh g' = fresh g.
Proof.
  revert i g. induction fuel as [|fuel IH]; intros i g; simpl.
  - destruct (targets g !! i); [discriminate|]. intros [= <-].
    repeat split; lia.
  - destruct (targets g !! i) eqn:Hi; [|intros [= <-]; repeat split; lia].
    intros H. apply bind_Ok in H as (g1 & Hv & H).
    apply visit_counters in Hv as (A1&A2&A3&A4&A5&_).
    apply IH in H as (B1&B2&B3&B4&B5).
    repeat split; try congruence; lia.
Qed.

(* ================================================================== *)
(** ** The events of a frame *)

Lemma randint_range a b raw : a <= b -> a <= randint a b raw <= b.
Proof.
  intros Hab. unfold randint.
  pose proof (Z.mod_pos_bound raw (b - a + 1)). lia.
Qed.

Lemma spawn_invariant rx ry g : invariant g -> invariant (spawn rx ry g).
Proof.
  intros [Ha Hp Hn Hf]. split; unfold spawn; cbn [targets fresh].
  - apply Forall_app. split; [assumption|]. apply Forall_singleton.
    exists 0%nat. split; [unfold LIFETIME; lia|apply updated_init].
  - apply Forall_app. split; [assumption|]. apply Forall_singleton.
    split; cbn [Target.x Target.y Target.init];
      apply randint_range; vm_compute; discriminate.
  - rewrite fmap_app. apply NoDup_app. split; [assumption|].
    split; [|apply NoDup_singleton].
    intros id Hid Hin. apply list_elem_of_singleton in Hin.
    apply list_elem_of_fmap in Hid as (t & -> & Ht).
    eapply Forall_forall in Hf; [|exact Ht]. cbn in Hin. lia.
  - apply Forall_app. split.
    + eapply Forall_impl; [exact Hf|]. intros t Ht. cbn in Ht. lia.
    + apply Forall_singleton. cbn. lia.
Qed.

Lemma handle_events_invariant evs click g run click' g' :
  invariant g -> handle_events evs click g = (run, click', g') -> invariant g'.
Proof.
  revert click g. induction evs as [|e evs IH]; intros click g Hinv; simpl.
  - intros [= _ _ <-]. exact Hinv.
  - destruct e; try (apply IH; assumption).
    + intros [= _ _ <-]. exact Hinv.
    + apply IH, spawn_invariant, Hinv.
    + apply IH. destruct Hinv. split; assumption.
Qed.

Lemma handle_events_counters evs click g run click' g' :
  handle_events evs click g = (run, click', g') ->
  targets_pressed g' = targets_pressed g /\
  clicks g <= clicks g' /\
  misses g' = misses g /\
  start_time g' = start_time g /\
  (fresh g <= fresh g')%nat.
Proof.
  revert click g. induction evs as [|e evs IH]; intros click g; simpl.
  - intros [= _ _ <-]. repeat split; lia.
  - destruct e; try (apply IH).
    + intros [= _ _ <-]. repeat split; lia.
    + intros H. apply IH in H as (A1&A2&A3&A4&A5). cbn in *.
      repeat split; try congruence; lia.
    + intros H. apply IH in H as (A1&A2&A3&A4&A5). cbn in *.
      repeat split; try congruence; lia.
Qed.

(* ================================================================== *)
(** ** One iteration of the loop *)

(** An iteration after which the loop goes on: the events were handled,
    the sweep ended, fewer than [LIVES] targets are missed and the top bar
    was drawn. *)
Lemma main_tick_Running f g g' :
  main_tick f g = Ok (Running g') ->
  exists click g1,
    handle_events (events f) false g = (true, click, g1) /\
    for_targets (length (targets g1)) 0 click (mouse_pos f) g1 = Ok g' /\
    misses g' < LIVES.
Proof.
  unfold main_tick.
  destruct (handle_events (events f) false g) as [[run click] g1] eqn:He.
  intros H. apply bind_Ok in H as (g2 & Hs & H).
  destruct (LIVES <=? misses g2) eqn:Hl.
  - apply bind_Ok in H as (s & _ & [=]).
  - apply bind_Ok in H as (b & _ & H).
    destruct run; [|discriminate]. injection H as <-.
    exists click, g1. repeat split; try assumption.
    apply Z.leb_gt, Hl.
Qed.

Lemma main_tick_invariant f g g' :
  invariant g -> main_tick f g = Ok (Running g') -> invariant g'.
Proof.
  intros Hinv H. apply main_tick_Running in H as (click & g1 & He & Hs & _).
  eapply for_targets_invariant; [|exact Hs].
  eapply handle_events_invariant; [exact Hinv|exact He].
Qed.

Lemma main_loop_invariant fs g g' :
  invariant g -> main_loop fs g = Ok (Running g') -> invariant g'.
Proof.
  revert g. induction fs as [|f fs IH]; intros g Hinv; simpl.
  - intros [= <-]. exact Hinv.
  - intros H. apply bind_Ok in H as (o & Ht & H).
    destruct o as [g1|s|].
    + eapply IH; [|exact H]. eapply main_tick_invariant; eassumption.
    + injection H as H. exfalso. clear -H.
      induction fs as [|f' fs IH]; simpl in H; [discriminate|].
      destruct (leaves _); [discriminate|auto].
    + discriminate.
Qed.

Lemma init_invariant t0 : invariant (init_game t0).
Proof.
  split; cbn; try apply Forall_nil_2. apply NoDup_nil_2.
Qed.

Lemma reachable_invariant g : reachable g -> invariant g.
Proof.
  intros (t0 & fs & H). eapply main_loop_invariant; [|exact H].
  apply init_invariant.
Qed.

(** The loop always answers: no iteration is cut short by the bound on
    the sweep. *)
Lemma main_tick_total f g : main_tick f g <> OutOfFuel.
Proof.
  unfold main_tick.
  destruct (handle_events (events f) false g) as [[run click] g1].
  destruct (for_targets _ _ _ _ _) as [g2| |] eqn:Hs; cbn [bind];
    [|discriminate|exfalso; eapply for_targets_total; [|exact Hs]; lia].
  destruct (LIVES <=? misses g2).
  - unfold end_screen, accuracy, truediv_int_float, truediv_int_int.
    destruct (_ =? 0)%float; cbn [bind]; [discriminate|].
    destruct (clicks g2 =? 0); cbn [bind]; discriminate.
  - unfold draw_top_bar, truediv_int_float.
    destruct (_ =? 0)%float; cbn [bind]; discriminate.
Qed.

Lemma main_loop_total fs g : main_loop fs g <> OutOfFuel.
Proof.
  revert g. induction fs as [|f fs IH]; intros g; simpl; [discriminate|].
  destruct (main_tick f g) as [[g1|s|]| |] eqn:Ht; cbn [bind];
    try discriminate; [apply IH|].
  exfalso. eapply main_tick_total, Ht.
Qed.

(* ================================================================== *)
(** ** Radius of the stored targets *)

(** C1. In every state the running loop reaches, each target of the
    collection has a radius between [0] and [MAX_SIZE]: a target is
    constructed with radius [0], an update takes it along [track], and
    the update that takes it to zero or below is followed, in the same
    iteration, by its removal. *)
Theorem stored_radius_in_range g :
  reachable g -> Forall radius_in_range (targets g).
Proof.
  intros Hr. apply reachable_invariant in Hr as [Ha _ _ _].
  eapply Forall_impl; [exact Ha|]. apply alive_in_range.
Qed.

Lemma stored_radius_in_range_witness :
  reachable before_press /\ Forall radius_in_range (targets before_press).
Proof.
  assert (H : reachable before_press)
    by (exists 0%float, two_targets; vm_compute; reflexivity).
  split; [exact H|exact (stored_radius_in_range before_press H)].
Defined.

(* ================================================================== *)
(** ** Position of a target *)

Lemma update_position t :
  Target.ident (Target.update t) = Target.ident t /\
  Target.x (Target.update t) = Target.x t /\
  Target.y (Target.update t) = Target.y t.
Proof. repeat split. Qed.

Lemma descends_refl n l : descends n l l.
Proof. intros t Ht. right. exists t. repeat split. exact Ht. Qed.

Lemma descends_sub n l0 (l l' : list Target.t) :
  descends n l0 l -> (forall t, t ∈ l' -> t ∈ l) -> descends n l0 l'.
Proof. intros H Hsub t Ht. apply H, Hsub, Ht. Qed.

Lemma list_remove_subset t l l' :
  list_remove t l = Ok l' -> forall a, a ∈ l' -> a ∈ l.
Proof.
  revert l'. induction l as [|b l IH]; simpl; intros l' H a Ha; [discriminate|].
  destruct (Nat.eqb _ _).
  - injection H as <-. apply elem_of_cons. right. exact Ha.
  - apply bind_Ok in H as (l'' & Hl & [= <-]).
    apply elem_of_cons in Ha as [->|Ha]; [apply elem_of_cons; left; reflexivity|].
    apply elem_of_cons. right. eapply IH; [exact Hl|exact Ha].
Qed.

Lemma descends_updated n l0 (l : list Target.t) (i : nat) t :
  descends n l0 l -> l !! i = Some t ->
  descends n l0 (<[i := Target.update t]> l).
Proof.
  intros H Hi t' Ht'.
  apply list_elem_of_lookup in Ht' as (j & Hj).
  destruct (decide (i = j)) as [<-|Hne].
  - rewrite list_lookup_insert_eq in Hj by (eapply lookup_lt_Some; exact Hi).
    injection Hj as <-.
    destruct (H t) as [Hn|(t0 & H0 & Hid & Hx & Hy)];
      [eapply list_elem_of_lookup_2; exact Hi|left; exact Hn|].
    right. exists t0. repeat split; assumption.
  - rewrite list_lookup_insert_ne in Hj by assumption.
    apply H. eapply list_elem_of_lookup_2; exact Hj.
Qed.

Lemma visit_descends n l0 i t click pos g g' :
  descends n l0 (targets g) -> targets g !! i = Some t ->
  visit i t click pos g = Ok g' -> descends n l0 (targets g').
Proof.
  intros H Hi. unfold visit, set_targets. cbn [targets].
  pose proof (descends_updated _ _ _ _ _ H Hi) as Hu.
  intros Hv. apply bind_Ok in Hv as (g1 & H1 & H2).
  assert (Hg1 : descends n l0 (targets g1)).
  { destruct (Target.size _ <=? 0)%float.
    - apply bind_Ok in H1 as (l & Hl & [= <-]). cbn [targets].
      eapply descends_sub; [exact Hu|]. eapply list_remove_subset, Hl.
    - injection H1 as <-. exact Hu. }
  destruct (click && _).
  - apply bind_Ok in H2 as (l & Hl & [= <-]). cbn [targets].
    eapply descends_sub; [exact Hg1|]. eapply list_remove_subset, Hl.
  - injection H2 as <-. exact Hg1.
Qed.

Lemma for_targets_descends n l0 fuel i click pos g g' :
  descends n l0 (targets g) ->
  for_targets fuel i click pos g = Ok g' -> descends n l0 (targets g').
Proof.
  revert i g. induction fuel as [|fuel IH]; intros i g Hd; simpl.
  - destruct (targets g !! i); [discriminate|]. intros [= <-]. exact Hd.
  - destruct (targets g !! i) eqn:Hi; [|intros [= <-]; exact Hd].
    intros H. apply bind_Ok in H as (g1 & Hv & H).
    eapply IH; [|exact H]. eapply visit_descends; eassumption.
Qed.

Lemma handle_events_descends n l0 evs click g run click' g' :
  (n <= fresh g)%nat -> descends n l0 (targets g) ->
  handle_events evs click g = (run, click', g') -> descends n l0 (targets g').
Proof.
  revert click g. induction evs as [|e evs IH]; intros click g Hn Hd; simpl.
  - intros [= _ _ <-]. exact Hd.
  - destruct e; try (apply IH; assumption).
    + intros [= _ _ <-]. exact Hd.
    + apply IH; [cbn; lia|]. unfold spawn. cbn [targets].
      intros t Ht. apply elem_of_app in Ht as [Ht|Ht]; [apply Hd, Ht|].
      apply list_elem_of_singleton in Ht as ->. left. exact Hn.
Qed.

Lemma same_ident_same_target (l : list Target.t) a b :
  NoDup (Target.ident <$> l) -> a ∈ l -> b ∈ l ->
  Target.ident a = Target.ident b -> a = b.
Proof.
  intros Hnd Ha Hb Hid.
  apply list_elem_of_lookup in Ha as (i & Hi).
  apply list_elem_of_lookup in Hb as (j & Hj).
  assert (i = j) as ->.
  { eapply NoDup_lookup; [exact Hnd| |].
    - rewrite list_lookup_fmap, Hi. reflexivity.
    - rewrite list_lookup_fmap, Hj, Hid. reflexivity. }
  congruence.
Qed.

(** C9. Every target of a reachable state has its centre in the padded
    play area; an update leaves the centre where it is; and the target
    that an iteration of the loop keeps is found after it at the same
    centre.  ([collide] only reads the target.) *)
Theorem target_position g :
  reachable g ->
  Forall in_play_area (targets g) /\
  (forall t,
     Target.x (Target.update t) = Target.x t /\
     Target.y (Target.update t) = Target.y t) /\
  (forall f g' t t',
     main_tick f g = Ok (Running g') ->
     t ∈ targets g -> t' ∈ targets g' ->
     Target.ident t' = Target.ident t ->
     Target.x t' = Target.x t /\ Target.y t' = Target.y t).
Proof.
  intros Hr. apply reachable_invariant in Hr as [Ha Hp Hn Hf].
  split; [exact Hp|]. split; [intros t; split; reflexivity|].
  intros f g' t t' Ht Hin Hin' Hid.
  apply main_tick_Running in Ht as (click & g1 & He & Hs & _).
  assert (Hd : descends (fresh g) (targets g) (targets g')).
  { eapply for_targets_descends; [|exact Hs].
    eapply handle_events_descends; [|apply descends_refl|exact He]. lia. }
  destruct (Hd t' Hin') as [Hnew|(t0 & H0 & Hid0 & Hx & Hy)].
  - eapply Forall_forall in Hf; [|exact Hin]. lia.
  - assert (t0 = t) as ->.
    { eapply same_ident_same_target; [exact Hn|exact H0|exact Hin|congruence]. }
    split; congruence.
Qed.

Lemma target_position_witness :
  reachable before_press /\
  Forall in_play_area (targets before_press) /\
  (forall t,
     Target.x (Target.update t) = Target.x t /\
     Target.y (Target.update t) = Target.y t) /\
  (forall f g' t t',
     main_tick f before_press = Ok (Running g') ->
     t ∈ targets before_press -> t' ∈ targets g' ->
     Target.ident t' = Target.ident t ->
     Target.x t' = Target.x t /\ Target.y t' = Target.y t).
Proof.
  assert (H : reachable before_press)
    by (exists 0%float, two_targets; vm_compute; reflexivity).
  split; [exact H|exact (target_position before_press H)].
Defined.

(* ================================================================== *)
(** ** The growth flag *)

Lemma iter_track k id x y :
  Target.size (Nat.iter k Target.update (Target.init id x y)) = (track k).1 /\
  Target.growth (Nat.iter k Target.update (Target.init id x y)) = (track k).2.
Proof.
  pose proof (updated_iter k id x y) as H. unfold updated in H.
  rewrite <- H. split; reflexivity.
Qed.

Lemma update_keeps_shrinking t :
  Target.growth t = false -> Target.growth (Target.update t) = false.
Proof.
  intros H. unfold Target.update. cbn [Target.growth]. rewrite H.
  destruct (_ <=? _)%float; reflexivity.
Qed.

Lemma track_shrinking k : (TURN <= k)%nat -> (track k).2 = false.
Proof.
  induction 1 as [|k _ IH]; [vm_compute; reflexivity|].
  change (track (S k)) with (grow (track k)).
  unfold grow. cbn [snd]. rewrite IH.
  destruct (_ <=? _)%float; reflexivity.
Qed.

Lemma track_growing k : (k < TURN)%nat -> (track k).2 = true.
Proof.
  revert k. apply (below_spec TURN (fun k => (track k).2)).
  vm_compute. reflexivity.
Qed.

Lemma track_below_max k :
  (S k < TURN)%nat ->
  (Target.MAX_SIZE <=? (track k).1 + Target.GROWTH_RATE)%float = false.
Proof.
  intros Hk. apply negb_true_iff.
  assert (Hk' : (k < TURN - 1)%nat) by lia. clear Hk. revert k Hk'.
  apply (below_spec (TURN - 1)
           (fun k => negb (Target.MAX_SIZE <=? (track k).1 + Target.GROWTH_RATE)%float)).
  vm_compute. reflexivity.
Qed.

Lemma track_turn :
  (Target.MAX_SIZE <=? (track (TURN - 1)).1 + Target.GROWTH_RATE)%float = true.
Proof. vm_compute. reflexivity. Qed.

Lemma track_decreasing k :
  (TURN <= S k <= LIFETIME)%nat ->
  ((track (S k)).1 <? (track k).1)%float = true.
Proof.
  intros [Hlo Hhi].
  assert (H : Nat.ltb (S k) TURN || ((track (S k)).1 <? (track k).1)%float = true).
  { assert (Hk : (k < LIFETIME)%nat) by lia. clear Hlo Hhi. revert k Hk.
    apply (below_spec LIFETIME
             (fun k => Nat.ltb (S k) TURN
                       || ((track (S k)).1 <? (track k).1)%float)).
    vm_compute. reflexivity. }
  apply orb_true_iff in H as [H|H]; [|exact H].
  apply Nat.ltb_lt in H. lia.
Qed.

(** C6. The flag of a target is set for the first [TURN - 1] updates and
    clear from update [TURN] on: it is cleared once, by the first update
    that finds [size + GROWTH_RATE >= MAX_SIZE], and no update sets it
    again.  From then on each update of the target's life keeps the flag
    clear and makes the radius strictly smaller. *)
Theorem growth_flips_once id x y :
  let T k := Nat.iter k Target.update (Target.init id x y) in
  (forall k, (k < TURN)%nat -> Target.growth (T k) = true) /\
  (forall k, (TURN <= k)%nat -> Target.growth (T k) = false) /\
  (forall k, (S k < TURN)%nat ->
     (Target.MAX_SIZE <=? Target.size (T k) + Target.GROWTH_RATE)%float = false) /\
  (forall k, S k = TURN ->
     (Target.MAX_SIZE <=? Target.size (T k) + Target.GROWTH_RATE)%float = true) /\
  (forall t, Target.growth t = false ->
     Target.growth (Target.update t) = false) /\
  (forall k, (TURN <= S k <= LIFETIME)%nat ->
     (Target.size (T (S k)) <? Target.size (T k))%float = true).
Proof.
  intros T. subst T. cbv beta.
  split; [|split; [|split; [|split; [|split]]]].
  - intros k Hk. rewrite (proj2 (iter_track k id x y)).
    apply track_growing, Hk.
  - intros k Hk. rewrite (proj2 (iter_track k id x y)).
    apply track_shrinking, Hk.
  - intros k Hk. rewrite (proj1 (iter_track k id x y)).
    apply track_below_max, Hk.
  - intros k Hk. rewrite (proj1 (iter_track k id x y)).
    replace k with (TURN - 1)%nat by lia. apply track_turn.
  - apply update_keeps_shrinking.
  - intros k Hk.
    rewrite (proj1 (iter_track (S k) id x y)), (proj1 (iter_track k id x y)).
    apply track_decreasing, Hk.
Qed.

(* ================================================================== *)
(** ** Order and conversions of doubles *)

Lemma SFleb_trans x y z :
  SFleb x y = true -> SFleb y z = true -> SFleb x z = true.
Proof.
  unfold SFleb, SFcompare.
  destruct x as [[]|[]| |[] mx ex], y as [[]|[]| |[] my ey],
           z as [[]|[]| |[] mz ez];
    try (intros; reflexivity); try (intros; discriminate).
  all: compare_cases.
Qed.

Lemma leb_trans (a b c : float) :
  (a <=? b)%float = true -> (b <=? c)%float = true -> (a <=? c)%float = true.
Proof. rewrite !leb_spec. apply SFleb_trans. Qed.

Lemma float_of_int_uint63 n :
  0 <= n < 2 ^ 63 -> float_of_int n = of_uint63 (Uint63.of_Z n).
Proof.
  intros Hn. unfold float_of_int.
  rewrite <- (SF2Prim_Prim2SF (of_uint63 (Uint63.of_Z n))).
  rewrite of_uint63_spec. f_equal. f_equal.
  rewrite Uint63.of_Z_spec. symmetry. apply Z.mod_small. exact Hn.
Qed.

Lemma range_all_spec k lo P :
  range_all k lo P = true ->
  forall n, lo <= n < lo + 2 ^ Z.of_nat k -> P n = true.
Proof.
  revert lo. induction k as [|k IH]; intros lo H n Hn; simpl in H.
  - replace n with lo by (simpl in Hn; lia). exact H.
  - apply andb_true_iff in H as [H1 H2].
    rewrite Nat2Z.inj_succ, Z.pow_succ_r in Hn by lia.
    destruct (Z.lt_ge_cases n (lo + 2 ^ Z.of_nat k)).
    + apply (IH lo); [exact H1|lia].
    + apply (IH (lo + 2 ^ Z.of_nat k)); [exact H2|lia].
Qed.

(* ================================================================== *)
(** ** The hit test against the Euclidean distance *)

Lemma sqrt_le_square a r :
  (0 <= a)%R -> (0 <= r)%R -> (R_sqrt.sqrt a <= r)%R <-> (a <= r * r)%R.
Proof.
  intros Ha Hr. split; intros H.
  - rewrite <- (sqrt_sqrt a Ha).
    pose proof (sqrt_pos a). nra.
  - rewrite <- (sqrt_square r Hr). apply sqrt_le_1_alt. exact H.
Qed.

Lemma powerRZ_2_nonneg e : 0 <= e -> powerRZ 2 e = IZR (2 ^ e).
Proof.
  intros He. rewrite <- (Z2Nat.id e He) at 1.
  rewrite <- pow_powerRZ, pow_IZR, Z2Nat.id by exact He. reflexivity.
Qed.

Lemma powerRZ_2_neg e : e < 0 -> powerRZ 2 e = (/ IZR (2 ^ (- e)))%R.
Proof.
  intros He. destruct e as [|p|p]; try lia.
  cbn [powerRZ Z.opp]. f_equal.
  rewrite pow_IZR, positive_nat_Z. reflexivity.
Qed.

(** [MAX_SIZE] stands for the real number 30, and [GROWTH_RATE] for a
    number a little above one fifth. *)
Example float_value_MAX_SIZE : float_value Target.MAX_SIZE = 30%R.
Proof.
  unfold float_value.
  replace (Prim2SF Target.MAX_SIZE)
    with (S754_finite false 8444249301319680 (-48)) by (vm_compute; reflexivity).
  rewrite powerRZ_2_neg by lia.
  change (2 ^ (- -48)) with 281474976710656. lra.
Qed.

Example float_value_GROWTH_RATE :
  float_value Target.GROWTH_RATE
  = (3602879701896397 / 18014398509481984)%R.
Proof.
  unfold float_value.
  replace (Prim2SF Target.GROWTH_RATE)
    with (S754_finite false 7205759403792794 (-55)) by (vm_compute; reflexivity).
  rewrite powerRZ_2_neg by lia.
  change (2 ^ (- -55)) with 36028797018963968. lra.
Qed.

(** [sq_floor] decides "the square root of [n] is at most [f]". *)
Lemma sq_floor_spec f n :
  is_finite f = true -> 0 <= n ->
  (n <=? sq_floor f) = true <-> (R_sqrt.sqrt (IZR n) <= float_value f)%R.
Proof.
  unfold is_finite, sq_floor, float_value.
  destruct (Prim2SF f) as [s|s| |s m e]; try discriminate. all: intros _ Hn.
  - rewrite Z.leb_le. split; intros H.
    + assert (n = 0) as -> by lia. rewrite sqrt_0. lra.
    + pose proof (sqrt_pos (IZR n)) as Hp.
      assert (E : R_sqrt.sqrt (IZR n) = 0%R) by lra.
      apply sqrt_eq_0 in E; [|apply IZR_le; exact Hn].
      apply eq_IZR in E. lia.
  - assert (Hm : (0 < IZR (Zpos m))%R) by (apply IZR_lt; lia).
    assert (Hp : (0 < powerRZ 2 e)%R) by (apply powerRZ_lt; lra).
    assert (Hr : (0 < IZR (Zpos m) * powerRZ 2 e)%R) by nra.
    destruct s.
    + split; intros H; [apply Z.leb_le in H; lia|].
      pose proof (sqrt_pos (IZR n)). lra.
    + rewrite Rmult_1_l.
      rewrite sqrt_le_square by (try (apply IZR_le; exact Hn); lra).
      destruct (0 <=? e) eqn:He.
      * apply Z.leb_le in He. rewrite powerRZ_2_nonneg by exact He.
        rewrite <- !mult_IZR, Z.leb_le.
        replace ((Zpos m * 2 ^ e) ^ 2) with (Zpos m * 2 ^ e * (Zpos m * 2 ^ e)) by ring.
        split; [apply IZR_le|apply le_IZR].
      * apply Z.leb_gt in He. rewrite powerRZ_2_neg by exact He.
        set (D := 2 ^ (- e)).
        assert (HD : 0 < D) by (apply Z.pow_pos_nonneg; lia).
        assert (HDR : (0 < IZR D)%R) by (apply IZR_lt; exact HD).
        rewrite Z.leb_le.
        assert (HD2 : 0 < D ^ 2) by nia.
        split; intros H.
        -- assert (H' : n * D ^ 2 <= Zpos m ^ 2).
           { pose proof (Z.mul_div_le (Zpos m ^ 2) (D ^ 2) HD2). nia. }
           apply IZR_le in H'. rewrite mult_IZR in H'.
           replace (D ^ 2) with (D * D) in H' by ring.
           replace (Zpos m ^ 2) with (Zpos m * Zpos m) in H' by ring.
           rewrite !mult_IZR in H'.
           apply (Rmult_le_reg_r (IZR D * IZR D)); [nra|].
           replace (IZR (Zpos m) * / IZR D * (IZR (Zpos m) * / IZR D) * (IZR D * IZR D))%R
             with (IZR (Zpos m) * IZR (Zpos m))%R by (field; lra).
           exact H'.
        -- apply Z.div_le_lower_bound; [exact HD2|].
           apply le_IZR.
           replace (D ^ 2) with (D * D) by ring.
           replace (Zpos m ^ 2) with (Zpos m * Zpos m) by ring.
           rewrite !mult_IZR.
           apply (Rmult_le_compat_r (IZR D * IZR D)) in H; [|nra].
           replace (IZR (Zpos m) * / IZR D * (IZR (Zpos m) * / IZR D) * (IZR D * IZR D))%R
             with (IZR (Zpos m) * IZR (Zpos m))%R in H by (field; lra).
           lra.
Qed.

(** Near the centre: every radius of [track] against every squared
    distance below [NEAR]. *)
Lemma near_check :
  below (S LIFETIME)
    (fun k =>
       let r := (track k).1 in
       let T := sq_floor r in
       is_finite r && (r <=? Target.MAX_SIZE)%float && (T <? NEAR)
       && range_all 10 0
            (fun n => Bool.eqb (sqrt_small n <=? r)%float (n <=? T))) = true.
Proof. vm_compute. reflexivity. Qed.

(** Away from the centre the distance exceeds [MAX_SIZE]. *)
Lemma far_check :
  range_all 21 NEAR
    (fun n => negb (sqrt_small n <=? Target.MAX_SIZE)%float) = true.
Proof. vm_compute. reflexivity. Qed.

Lemma track_finite k :
  (k <= LIFETIME)%nat ->
  is_finite (track k).1 = true /\
  ((track k).1 <=? Target.MAX_SIZE)%float = true /\
  sq_floor (track k).1 < NEAR /\
  forall n, 0 <= n < NEAR ->
    (sqrt_small n <=? (track k).1)%float = (n <=? sq_floor (track k).1).
Proof.
  intros Hk. assert (Hk' : (k < S LIFETIME)%nat) by lia.
  pose proof (below_spec _ _ near_check k Hk') as H. cbv zeta beta in H.
  apply andb_true_iff in H as [H H4]. apply andb_true_iff in H as [H H3].
  apply andb_true_iff in H as [H1 H2].
  repeat split; try assumption.
  - apply Z.ltb_lt, H3.
  - intros n Hn. apply eqb_prop.
    apply (range_all_spec _ _ _ H4 n). change (2 ^ Z.of_nat 10) with 1024.
    unfold NEAR in Hn. lia.
Qed.

(** The comparison [collide] makes, for a radius of [track] and a squared
    distance below [FAR]. *)
Lemma hit_test_exact k n :
  (k <= LIFETIME)%nat -> 0 <= n < FAR ->
  (PrimFloat.sqrt (float_of_int n) <=? (track k).1)%float
  = (n <=? sq_floor (track k).1).
Proof.
  intros Hk Hn.
  rewrite float_of_int_uint63 by (unfold FAR, NEAR in Hn; lia).
  fold (sqrt_small n).
  destruct (track_finite k Hk) as (Hf & Hmax & HT & Hnear).
  destruct (Z.lt_ge_cases n NEAR) as [Hlt|Hge]; [apply Hnear; lia|].
  pose proof (range_all_spec _ _ _ far_check n) as Hfar.
  cbv beta in Hfar. rewrite negb_true_iff in Hfar.
  replace (n <=? sq_floor (track k).1) with false
    by (symmetry; apply Z.leb_gt; lia).
  destruct (sqrt_small n <=? (track k).1)%float eqn:E; [|reflexivity].
  rewrite <- Hfar; [|unfold FAR in Hn; change (Z.of_nat 21) with 21; lia].
  symmetry. eapply leb_trans; eassumption.
Qed.

Lemma sq_distance_bound t px py :
  Z.abs (Target.x t - px) <= WIDTH -> Z.abs (Target.y t - py) <= HEIGHT ->
  0 <= sq_distance t px py < FAR.
Proof.
  unfold sq_distance, WIDTH, HEIGHT, FAR, NEAR. intros Hx Hy.
  change (NEAR + 2 ^ 21) with 2098176. nia.
Qed.

(** The comparison [collide] makes is the comparison of the real numbers:
    the square root of [n] against the radius after [k] updates. *)
Lemma hit_test_real k n :
  (k <= LIFETIME)%nat -> 0 <= n < FAR ->
  (PrimFloat.sqrt (float_of_int n) <=? (track k).1)%float = true <->
  (R_sqrt.sqrt (IZR n) <= float_value (track k).1)%R.
Proof.
  intros Hk Hn. rewrite hit_test_exact by assumption.
  apply sq_floor_spec; [apply track_finite, Hk|lia].
Qed.

(** C3. For a target at any moment of its life, from its construction to
    the update that ends it, and a point at most a window away from its
    centre, [collide] answers [true] exactly when the Euclidean distance
    from the point to the centre is at most the radius. *)
Theorem collide_iff_within_radius t k px py :
  updated k t -> (k <= LIFETIME)%nat ->
  Z.abs (Target.x t - px) <= WIDTH -> Z.abs (Target.y t - py) <= HEIGHT ->
  Target.collide t px py = true <->
  (distance t px py <= float_value (Target.size t))%R.
Proof.
  intros Hu Hk Hx Hy.
  pose proof (sq_distance_bound t px py Hx Hy) as Hn.
  assert (Hs : Target.size t = (track k).1) by (rewrite <- Hu; reflexivity).
  unfold Target.collide, distance. fold (sq_distance t px py).
  rewrite Hs. apply hit_test_real; assumption.
Qed.

Lemma collide_iff_within_radius_witness :
  updated 1 young_target /\ (1 <= LIFETIME)%nat /\
  Z.abs (Target.x young_target - 31) <= WIDTH /\
  Z.abs (Target.y young_target - 80) <= HEIGHT /\
  (Target.collide young_target 31 80 = true <->
   (distance young_target 31 80 <= float_value (Target.size young_target))%R).
Proof.
  assert (H1 : updated 1 young_target) by reflexivity.
  assert (H2 : (1 <= LIFETIME)%nat) by (unfold LIFETIME; lia).
  assert (H3 : Z.abs (Target.x young_target - 31) <= WIDTH)
    by (unfold WIDTH; simpl; lia).
  assert (H4 : Z.abs (Target.y young_target - 80) <= HEIGHT)
    by (unfold HEIGHT; simpl; lia).
  repeat split; try assumption;
    apply (collide_iff_within_radius young_target 1 31 80 H1 H2 H3 H4).
Defined.

(** C10. A target that has just been constructed is hit by the point at
    its centre and by no other point of the window. *)
Theorem fresh_target_hit_only_at_centre id x y px py :
  Z.abs (x - px) <= WIDTH -> Z.abs (y - py) <= HEIGHT ->
  Target.collide (Target.init id x y) px py = true <-> px = x /\ py = y.
Proof.
  intros Hx Hy.
  pose proof (sq_distance_bound (Target.init id x y) px py Hx Hy) as Hn.
  unfold Target.collide. fold (sq_distance (Target.init id x y) px py).
  change (Target.size (Target.init id x y)) with (track 0).1.
  rewrite hit_test_exact by (assumption || (unfold LIFETIME; lia)).
  change (sq_floor (track 0).1) with 0.
  rewrite Z.leb_le. unfold sq_distance in *. cbn [Target.x Target.y Target.init] in *.
  split; [intros H|intros [-> ->]]; [nia|lia].
Qed.

Lemma fresh_target_hit_only_at_centre_witness :
  Z.abs (30 - 30) <= WIDTH /\ Z.abs (80 - 80) <= HEIGHT /\
  (Target.collide (Target.init 0 30 80) 30 80 = true <-> 30 = 30 /\ 80 = 80).
Proof.
  assert (H1 : Z.abs (30 - 30) <= WIDTH) by (unfold WIDTH; simpl; lia).
  assert (H2 : Z.abs (80 - 80) <= HEIGHT) by (unfold HEIGHT; simpl; lia).
  split; [exact H1|]. split; [exact H2|].
  exact (fresh_target_hit_only_at_centre 0 30 80 30 80 H1 H2).
Defined.

(** The hypothesis on the radius is used: [collide] compares two doubles,
    and for a radius below the square root of an integer by less than the
    rounding of [math.sqrt] the two comparisons differ.  The radii of
    [track] are not of that kind. *)
Remark hit_test_rounds :
  Target.collide odd_target 2 3 = true /\
  ~ (distance odd_target 2 3 <= float_value (Target.size odd_target))%R.
Proof.
  split; [vm_compute; reflexivity|].
  intros H. unfold distance in H.
  apply sq_floor_spec in H; [|vm_compute; reflexivity|vm_compute; discriminate].
  vm_compute in H. discriminate.
Qed.

(** In the sweep of a reachable state, with the pointer on the screen,
    the test made on each target after its update is that comparison. *)
Lemma sweep_hit_test g t pos :
  reachable g -> t ∈ targets g -> on_screen pos ->
  Target.collide (Target.update t) pos.1 pos.2 = true <->
  (distance (Target.update t) pos.1 pos.2
   <= float_value (Target.size (Target.update t)))%R.
Proof.
  intros Hr Hin [Hpx Hpy].
  apply reachable_invariant in Hr as [Ha Hp _ _].
  pose proof (proj1 (Forall_forall _ _) Ha _ Hin) as (k & Hk & Hu).
  pose proof (proj1 (Forall_forall _ _) Hp _ Hin) as [Hx Hy].
  apply updated_update in Hu.
  assert (Hs : Target.size (Target.update t) = (track (S k)).1)
    by (rewrite <- Hu; reflexivity).
  unfold Target.collide, distance.
  fold (sq_distance (Target.update t) pos.1 pos.2).
  rewrite Hs. apply hit_test_real; [lia|].
  apply sq_distance_bound; cbn [Target.x Target.y Target.update];
    unfold HEIGHT, WIDTH, TARGET_PADDING, TOP_BAR_HEIGHT in *; lia.
Qed.

(* ================================================================== *)
(** ** What an iteration can raise *)

(** The update that ends a target leaves it out of reach of the pointer:
    its radius is negative. *)
Lemma expired_not_hit t px py :
  alive t -> (Target.size (Target.update t) <=? 0)%float = true ->
  Z.abs (Target.x t - px) <= WIDTH -> Z.abs (Target.y t - py) <= HEIGHT ->
  Target.collide (Target.update t) px py = false.
Proof.
  intros (k & Hk & Hu) Hz Hx Hy.
  apply updated_update in Hu.
  assert (Hs : Target.size (Target.update t) = (track (S k)).1)
    by (rewrite <- Hu; reflexivity).
  assert (E : S k = LIFETIME).
  { destruct (decide (S k = LIFETIME)) as [E|Hne]; [exact E|].
    rewrite Hs, track_positive in Hz; [discriminate|]. unfold LIFETIME in *. lia. }
  pose proof (sq_distance_bound (Target.update t) px py Hx Hy) as Hn.
  unfold Target.collide. fold (sq_distance (Target.update t) px py).
  rewrite Hs, hit_test_exact; [|lia|exact Hn].
  rewrite E. change (sq_floor (track LIFETIME).1) with (-1).
  apply Z.leb_gt. lia.
Qed.

Lemma visit_answers i t click pos g :
  invariant g -> targets g !! i = Some t -> on_screen pos ->
  exists g', visit i t click pos g = Ok g'.
Proof.
  intros [Ha Hp Hn Hf] Hi [Hpx Hpy].
  assert (Hin : t ∈ targets g) by (eapply list_elem_of_lookup_2; eassumption).
  pose proof (proj1 (Forall_forall _ _) Ha _ Hin) as Hat.
  pose proof (proj1 (Forall_forall _ _) Hp _ Hin) as [Hx Hy].
  unfold visit, set_targets. cbn [targets].
  destruct (Target.size (Target.update t) <=? 0)%float eqn:Hz.
  - rewrite (list_remove_at _ _ _ t) by (assumption || reflexivity).
    cbn [bind targets].
    rewrite expired_not_hit, andb_false_r; eauto;
      unfold WIDTH, HEIGHT, TARGET_PADDING, TOP_BAR_HEIGHT in *; lia.
  - cbn [bind targets]. destruct (click && _); eauto.
    rewrite (list_remove_at _ _ _ t) by (assumption || reflexivity).
    cbn [bind]. eauto.
Qed.

Lemma for_targets_answers fuel i click pos g :
  invariant g -> on_screen pos ->
  (length (targets g) <= i + fuel)%nat ->
  exists g', for_targets fuel i click pos g = Ok g'.
Proof.
  revert i g. induction fuel as [|fuel IH]; intros i g Hinv Hpos Hlen; simpl.
  - destruct (targets g !! i) eqn:Hi; [|eauto].
    apply lookup_lt_Some in Hi. lia.
  - destruct (targets g !! i) eqn:Hi; [|eauto].
    destruct (visit_answers i t click pos g Hinv Hi Hpos) as (g1 & Hv).
    rewrite Hv. cbn [bind]. apply IH; [|exact Hpos|].
    + eapply visited_invariant; [exact Hinv|exact Hi|].
      apply visit_visited; [apply Hinv|exact Hi|exact Hv].
    + apply visit_counters in Hv. lia.
Qed.

(** With the pointer on the screen, updating and removing targets never
    raises: an iteration can only fail in a division, which it does when
    the elapsed time is zero or when the last life is lost before the
    first press. *)
Lemma main_tick_raises f g e :
  invariant g -> on_screen (mouse_pos f) ->
  main_tick f g = Raise e ->
  e = ZeroDivisionError /\
  ((elapsed f g =? 0)%float = true \/
   exists run click g1 g2,
     handle_events (events f) false g = (run, click, g1) /\
     for_targets (length (targets g1)) 0 click (mouse_pos f) g1 = Ok g2 /\
     LIVES <= misses g2 /\ clicks g2 = 0).
Proof.
  intros Hinv Hpos. unfold main_tick.
  destruct (handle_events (events f) false g) as [[run click] g1] eqn:He.
  destruct (for_targets_answers (length (targets g1)) 0 click (mouse_pos f) g1)
    as (g2 & Hs); [eapply handle_events_invariant; eassumption|exact Hpos|lia|].
  rewrite Hs. cbn [bind].
  unfold end_screen, draw_top_bar, accuracy, truediv_int_float, truediv_int_int.
  destruct (LIVES <=? misses g2) eqn:Hl.
  - destruct (elapsed f g =? 0)%float; cbn [bind];
      [intros [= <-]; auto|].
    destruct (clicks g2 =? 0) eqn:Hc; cbn [bind]; [|discriminate].
    intros [= <-]. split; [reflexivity|]. right.
    exists run, click, g1, g2. repeat split.
    + exact Hs.
    + apply Z.leb_le, Hl.
    + apply Z.eqb_eq, Hc.
  - destruct (elapsed f g =? 0)%float; cbn [bind];
      [intros [= <-]; auto|discriminate].
Qed.

(** After the first press, and with a clock that has moved, every
    iteration answers. *)
Lemma main_tick_answers f g :
  invariant g -> on_screen (mouse_pos f) ->
  (elapsed f g =? 0)%float = false -> 0 < clicks g ->
  exists o, main_tick f g = Ok o.
Proof.
  intros Hinv Hpos Ht Hc.
  destruct (main_tick f g) as [o|e|] eqn:H; [eauto| |].
  - apply main_tick_raises in H as [_ [H|(run & click & g1 & g2 & He & Hs & _ & H0)]];
      try assumption; [congruence|].
    apply handle_events_counters in He as (_&A&_).
    apply for_targets_counters in Hs as (_&B&_). lia.
  - exfalso. eapply main_tick_total, H.
Qed.

(* ================================================================== *)
(** ** Subtraction of doubles keeps the order

    A finite double is a whole number of units of [2^emin]; the
    difference of two doubles is the difference of these numbers rounded
    to 53 digits, and the rounding is monotone. *)

Lemma emin_value : emin = -1074.
Proof. reflexivity. Qed.

Lemma digits2_size p : digits2_pos p = Pos.size p.
Proof. induction p; simpl; congruence. Qed.

Lemma digits2_bits p : Zpos (digits2_pos p) = bits (Zpos p).
Proof.
  rewrite digits2_size. unfold bits. destruct p; simpl; lia.
Qed.

Lemma bits_spec v : 0 < v -> 2 ^ (bits v - 1) <= v < 2 ^ bits v.
Proof.
  intros Hv. unfold bits. replace (Z.log2 v + 1 - 1) with (Z.log2 v) by lia.
  apply Z.log2_spec, Hv.
Qed.

Lemma bits_pos v : 0 < v -> 0 < bits v.
Proof. intros Hv. unfold bits. pose proof (Z.log2_nonneg v). lia. Qed.

Lemma bits_unique v d : 0 < d -> 2 ^ (d - 1) <= v < 2 ^ d -> bits v = d.
Proof.
  intros Hd H. unfold bits.
  rewrite (Z.log2_unique v (d - 1)); [lia|lia|].
  replace (Z.succ (d - 1)) with d by lia. exact H.
Qed.

Lemma bits_mono v w : v <= w -> bits v <= bits w.
Proof. intros H. unfold bits. apply Z.log2_le_mono in H. lia. Qed.

Lemma bits_shift v j : 0 < v -> 0 <= j -> bits (v * 2 ^ j) = bits v + j.
Proof.
  intros Hv Hj. pose proof (bits_spec v Hv) as [H1 H2].
  pose proof (bits_pos v Hv) as Hb.
  apply bits_unique; [lia|].
  replace (bits v + j - 1) with (bits v - 1 + j) by lia.
  rewrite !Z.pow_add_r by lia.
  assert (0 < 2 ^ j) by (apply Z.pow_pos_nonneg; lia).
  split; nia.
Qed.

(* ---- rounding an integer quotient ---- *)

Lemma rne_range m k : 0 < k -> m / 2 ^ k <= rne m k <= m / 2 ^ k + 1.
Proof.
  intros Hk. unfold rne.
  destruct (_ <? _); [lia|]. destruct (_ <? _); [lia|].
  destruct (Z.even _); lia.
Qed.

Lemma rne_exact q k : 0 < k -> rne (q * 2 ^ k) k = q.
Proof.
  intros Hk. unfold rne.
  assert (H2 : 0 < 2 ^ k) by (apply Z.pow_pos_nonneg; lia).
  assert (Hh : 0 < 2 ^ (k - 1)) by (apply Z.pow_pos_nonneg; lia).
  rewrite Z.div_mul, Z.mod_mul by lia.
  replace (0 <? 2 ^ (k - 1)) with true by (symmetry; apply Z.ltb_lt; lia).
  reflexivity.
Qed.

Lemma rne_scale m k j :
  0 < k -> 0 <= j -> rne (m * 2 ^ j) (k + j) = rne m k.
Proof.
  intros Hk Hj. unfold rne.
  assert (H2 : 0 < 2 ^ k) by (apply Z.pow_pos_nonneg; lia).
  assert (Hh : 0 < 2 ^ (k - 1)) by (apply Z.pow_pos_nonneg; lia).
  assert (H3 : 0 < 2 ^ j) by (apply Z.pow_pos_nonneg; lia).
  rewrite Z.pow_add_r by lia.
  rewrite Z.div_mul_cancel_r by lia.
  rewrite Z.mul_mod_distr_r by lia.
  replace (k + j - 1) with (k - 1 + j) by lia.
  rewrite Z.pow_add_r by lia.
  set (r := m mod 2 ^ k). set (h := 2 ^ (k - 1)).
  replace (r * 2 ^ j <? h * 2 ^ j) with (r <? h)
    by (destruct (Z.ltb_spec r h), (Z.ltb_spec (r * 2 ^ j) (h * 2 ^ j));
        try reflexivity; nia).
  replace (h * 2 ^ j <? r * 2 ^ j) with (h <? r)
    by (destruct (Z.ltb_spec h r), (Z.ltb_spec (h * 2 ^ j) (r * 2 ^ j));
        try reflexivity; nia).
  reflexivity.
Qed.

Lemma rne_mono m1 m2 k : 0 < k -> m1 <= m2 -> rne m1 k <= rne m2 k.
Proof.
  intros Hk Hm.
  assert (H2 : 0 < 2 ^ k) by (apply Z.pow_pos_nonneg; lia).
  pose proof (Z.div_le_mono m1 m2 (2 ^ k) H2 Hm) as Hq.
  destruct (Z.eq_dec (m1 / 2 ^ k) (m2 / 2 ^ k)) as [E|N].
  - assert (Hr : m1 mod 2 ^ k <= m2 mod 2 ^ k).
    { rewrite (Z.div_mod m1 (2 ^ k)), (Z.div_mod m2 (2 ^ k)) in Hm by lia.
      rewrite E in Hm. lia. }
    unfold rne. rewrite E.
    set (q := m2 / 2 ^ k). set (h := 2 ^ (k - 1)).
    destruct (Z.ltb_spec (m1 mod 2 ^ k) h), (Z.ltb_spec (m2 mod 2 ^ k) h),
             (Z.ltb_spec h (m1 mod 2 ^ k)), (Z.ltb_spec h (m2 mod 2 ^ k));
      destruct (Z.even q); lia.
  - pose proof (rne_range m1 k Hk). pose proof (rne_range m2 k Hk). lia.
Qed.

Lemma rne_bounds m k :
  0 < k -> 0 < m -> bits m = k + prec ->
  2 ^ (prec - 1) <= rne m k <= 2 ^ prec.
Proof.
  intros Hk Hm Hb. pose proof (bits_spec m Hm) as [H1 H2].
  rewrite Hb in H1, H2.
  assert (Hp : 0 < 2 ^ k) by (apply Z.pow_pos_nonneg; lia).
  replace (k + prec - 1) with (prec - 1 + k) in H1 by lia.
  replace (k + prec) with (prec + k) in H2 by lia.
  rewrite Z.pow_add_r in H1, H2 by (unfold prec; lia).
  assert (Q1 : 2 ^ (prec - 1) <= m / 2 ^ k)
    by (apply Z.div_le_lower_bound; lia).
  assert (Q2 : m / 2 ^ k < 2 ^ prec)
    by (apply Z.div_lt_upper_bound; lia).
  pose proof (rne_range m k Hk). lia.
Qed.

(* ---- shifting right with a round bit and a sticky bit ---- *)

Lemma iter_pos_nat {A : Type} (f : A -> A) p x :
  SpecFloat.iter_pos f p x = Nat.iter (Pos.to_nat p) f x.
Proof.
  revert x. induction p as [p IH|p IH|]; intros x; cbn [SpecFloat.iter_pos].
  - rewrite !IH, Pos2Nat.inj_xI.
    replace (S (2 * Pos.to_nat p)) with (Pos.to_nat p + (Pos.to_nat p + 1))%nat by lia.
    rewrite !Nat.iter_add. reflexivity.
  - rewrite !IH, Pos2Nat.inj_xO.
    replace (2 * Pos.to_nat p)%nat with (Pos.to_nat p + Pos.to_nat p)%nat by lia.
    rewrite Nat.iter_add. reflexivity.
  - reflexivity.
Qed.

Lemma shr_1_step m r s :
  0 <= m ->
  shr_1 (Build_shr_record m r s) = Build_shr_record (Z.div2 m) (Z.odd m) (r || s).
Proof. intros Hm. destruct m as [|[p|p|]|]; try lia; reflexivity. Qed.

Lemma shr_iter m0 n :
  0 <= m0 ->
  let mrs := Nat.iter n shr_1 (Build_shr_record m0 false false) in
  shr_m mrs = m0 / 2 ^ Z.of_nat n /\
  (n = 0%nat -> shr_r mrs = false) /\
  exists t,
    0 <= t <= Z.max 0 (2 ^ (Z.of_nat n - 1) - 1) /\
    m0 mod 2 ^ Z.of_nat n
    = (if shr_r mrs then 2 ^ (Z.of_nat n - 1) else 0) + t /\
    shr_s mrs = negb (t =? 0).
Proof.
  intros Hm0. induction n as [|n IH]; cbv zeta.
  - simpl. rewrite Z.div_1_r, Z.mod_1_r. split; [reflexivity|].
    split; [reflexivity|]. exists 0. repeat split; simpl; lia.
  - cbv zeta in IH. destruct IH as (Hq & Hr0 & t & Ht & Hmod & Hs).
    rewrite Nat.iter_succ.
    destruct (Nat.iter n shr_1 _) as [m r s]. cbn [shr_m shr_r shr_s] in *.
    assert (Hm : 0 <= m) by (rewrite Hq; apply Z.div_pos; [lia|apply Z.pow_pos_nonneg; lia]).
    rewrite shr_1_step by exact Hm. cbn [shr_m shr_r shr_s].
    rewrite Nat2Z.inj_succ.
    replace (Z.succ (Z.of_nat n) - 1) with (Z.of_nat n) by lia.
    set (N := Z.of_nat n) in *.
    assert (HN : 0 <= N) by (unfold N; lia).
    assert (H2 : 0 < 2 ^ N) by (apply Z.pow_pos_nonneg; lia).
    split.
    + rewrite Z.div2_div, Hq, Z.pow_succ_r, Z.div_div by lia.
      f_equal. lia.
    + split; [intros; lia|].
      exists (m0 mod 2 ^ N).
      pose proof (Z.mod_pos_bound m0 (2 ^ N) H2) as Hb.
      split; [lia|]. split.
      * rewrite Z.pow_succ_r by lia.
        replace (2 * 2 ^ N) with (2 ^ N * 2) by lia.
        rewrite Z.rem_mul_r by lia.
        rewrite <- Hq, Zmod_odd. destruct (Z.odd m); lia.
      * rewrite Hmod, Hs.
        destruct r.
        -- destruct n as [|n']; [specialize (Hr0 eq_refl); discriminate|].
           assert (0 < 2 ^ (N - 1)) by (apply Z.pow_pos_nonneg; unfold N; lia).
           simpl. symmetry. apply negb_true_iff, Z.eqb_neq. lia.
        -- simpl. reflexivity.
Qed.

Lemma shr_rne m0 p :
  0 <= m0 ->
  let mrs := SpecFloat.iter_pos shr_1 p (Build_shr_record m0 false false) in
  shr_m mrs = m0 / 2 ^ Zpos p /\
  round_nearest_even (shr_m mrs) (loc_of_shr_record mrs) = rne m0 (Zpos p).
Proof.
  intros Hm0. cbv zeta. rewrite iter_pos_nat.
  destruct (shr_iter m0 (Pos.to_nat p) Hm0) as (Hq & _ & t & Ht & Hmod & Hs).
  rewrite positive_nat_Z in *.
  destruct (Nat.iter _ shr_1 _) as [m r s]. cbn [shr_m shr_r shr_s] in *.
  split; [exact Hq|].
  assert (Hh : 0 < 2 ^ (Zpos p - 1)) by (apply Z.pow_pos_nonneg; lia).
  unfold rne. rewrite Hmod, <- Hq.
  destruct r; cbn [loc_of_shr_record round_nearest_even].
  - replace (_ <? _) with false by (symmetry; apply Z.ltb_ge; lia).
    destruct (Z.eqb_spec t 0) as [->|Hne]; simpl in Hs; subst s;
      cbn [loc_of_shr_record round_nearest_even].
    + replace (_ <? _) with false by (symmetry; apply Z.ltb_ge; lia).
      reflexivity.
    + replace (_ <? _) with true by (symmetry; apply Z.ltb_lt; lia).
      reflexivity.
  - replace (_ <? _) with true by (symmetry; apply Z.ltb_lt; lia).
    destruct s; reflexivity.
Qed.

(* ---- the rounding of the operations ---- *)

Lemma iter_xO p n : Zpos (Pos.iter xO p n) = Zpos p * 2 ^ Zpos n.
Proof.
  induction n as [|n IH] using Pos.peano_ind.
  - simpl. lia.
  - rewrite Pos.iter_succ, Pos2Z.inj_succ, Z.pow_succ_r by lia.
    rewrite Pos2Z.inj_xO, IH. lia.
Qed.

Lemma shl_align_le p e e' :
  e' <= e ->
  exists mz, shl_align p e e' = (mz, e') /\ Zpos mz = Zpos p * 2 ^ (e - e').
Proof.
  intros H. unfold shl_align.
  destruct (e' - e) as [|d|d] eqn:E; try lia.
  - exists p. replace e' with e by lia. rewrite Z.sub_diag. split; [reflexivity|lia].
  - exists (Pos.iter xO p d). split; [reflexivity|].
    rewrite iter_xO. f_equal. f_equal. lia.
Qed.

Lemma shl_align_ge p e e' : e <= e' -> shl_align p e e' = (p, e).
Proof.
  intros H. unfold shl_align. destruct (e' - e) eqn:E; try reflexivity. lia.
Qed.

Lemma binary_round_aux_exact sx m e :
  fexp prec emax (bits (Zpos m) + e) = e ->
  binary_round_aux prec emax sx (Zpos m) e loc_Exact
  = if e <=? emax - prec then S754_finite sx m e else S754_infinity sx.
Proof.
  intros H. unfold binary_round_aux, shr_fexp.
  cbn [Zdigits2]. rewrite digits2_bits, H, Z.sub_diag.
  cbn [shr shr_record_of_loc shr_m loc_of_shr_record round_nearest_even Zdigits2].
  rewrite digits2_bits, H, Z.sub_diag.
  cbn [shr shr_record_of_loc shr_m]. reflexivity.
Qed.

Lemma round53_eq v :
  round53 v
  = if bits v <=? 53 then (v, 0)
    else if rne v (bits v - 53) =? 2 ^ 53 then (2 ^ 52, bits v - 53 + 1)
    else (rne v (bits v - 53), bits v - 53).
Proof. reflexivity. Qed.

Lemma binary_round_units sx p e :
  emin <= e ->
  binary_round prec emax sx p e
  = to_sf sx (round53 (Zpos p * 2 ^ (e - emin))).
Proof.
  intros He. change emin with (-1074) in *.
  set (d := bits (Zpos p)).
  assert (Hd : 0 < d) by (apply bits_pos; lia).
  assert (Hv : 0 < Zpos p * 2 ^ (e - -1074))
    by (apply Z.mul_pos_pos; [lia|apply Z.pow_pos_nonneg; lia]).
  assert (Hbv : bits (Zpos p * 2 ^ (e - -1074)) = d + (e - -1074))
    by (apply bits_shift; lia).
  unfold binary_round. rewrite digits2_bits. fold d.
  rewrite round53_eq, Hbv.
  destruct (Z.le_gt_cases d prec) as [Hdp|Hdp]; unfold prec in Hdp.
  - (* the mantissa fits: the result is exact *)
    set (E := fexp prec emax (d + e)).
    assert (HE : E = Z.max (d + e - 53) (-1074)) by reflexivity.
    destruct (shl_align_le p e E ltac:(lia)) as (mz & -> & Hmz).
    assert (Hbz : bits (Zpos mz) = d + (e - E))
      by (rewrite Hmz; apply bits_shift; lia).
    rewrite binary_round_aux_exact
      by (rewrite Hbz; replace (d + (e - E) + E) with (d + e) by lia; reflexivity).
    unfold to_sf, prec, emax.
    destruct (Z.leb_spec (d + (e - -1074)) 53) as [Hs|Hs].
    + (* subnormal *)
      cbn [fst snd]. float_consts. assert (HE' : E = -1074) by lia.
      rewrite HE' in *.
      replace (0 + -1074 <=? 1024 - 53) with true by reflexivity.
      replace (-1074 <=? 1024 - 53) with true by reflexivity.
      rewrite <- Hmz. reflexivity.
    + (* normal *)
      assert (HEd : E = d + e - 53) by lia.
      set (k := d + (e - -1074) - 53).
      assert (Hk : 0 < k) by (unfold k; lia).
      assert (Hsplit : Zpos p * 2 ^ (e - -1074) = Zpos mz * 2 ^ k).
      { rewrite Hmz, <- Z.mul_assoc, <- Z.pow_add_r by lia.
        f_equal. f_equal. unfold k. lia. }
      rewrite Hsplit, rne_exact by exact Hk.
      assert (Hlt : Zpos mz < 2 ^ 53).
      { pose proof (bits_spec (Zpos mz) ltac:(lia)) as [_ Hu].
        rewrite Hbz in Hu. replace (d + (e - E)) with 53 in Hu by lia. exact Hu. }
      replace (Zpos mz =? 2 ^ 53) with false by (symmetry; apply Z.eqb_neq; lia).
      cbn [fst snd]. float_consts.
      replace (k + -1074) with E by (unfold k; lia).
      reflexivity.
  - (* the mantissa is cut *)
    set (k0 := d - 53).
    assert (Hk0 : 0 < k0) by (unfold k0; lia).
    assert (HE : fexp prec emax (d + e) = e + k0)
      by (unfold fexp, prec, emax, SpecFloat.emin, k0; lia).
    rewrite HE, shl_align_ge by lia.
    unfold binary_round_aux, shr_fexp at 1.
    cbn [Zdigits2]. rewrite digits2_bits. fold d. rewrite HE.
    replace (e + k0 - e) with k0 by lia.
    destruct k0 as [|pk|pk] eqn:Ek; try lia.
    cbn [shr shr_record_of_loc].
    destruct (shr_rne (Zpos p) pk ltac:(lia)) as [_ Hr]. cbv zeta in Hr.
    destruct (SpecFloat.iter_pos shr_1 pk _) as [m r s] eqn:Em.
    rewrite Hr.
    assert (Hb : 2 ^ (prec - 1) <= rne (Zpos p) (Zpos pk) <= 2 ^ prec)
      by (apply rne_bounds; [lia|lia|unfold prec; fold d; lia]).
    replace (d + (e - -1074) - 53) with (Zpos pk + (e - -1074)) by lia.
    rewrite rne_scale by lia.
    set (M := rne (Zpos p) (Zpos pk)) in *. unfold prec in Hb.
    replace (d + (e - -1074) <=? 53) with false by (symmetry; apply Z.leb_gt; lia).
    destruct (Z.eqb_spec M (2 ^ 53)) as [EM|NM].
    + rewrite EM. unfold shr_fexp.
      change (Zdigits2 (2 ^ 53)) with 54.
      replace (fexp prec emax (54 + (e + Zpos pk)) - (e + Zpos pk)) with 1
        by (unfold fexp, prec, emax, SpecFloat.emin; lia).
      cbn [shr shr_record_of_loc SpecFloat.iter_pos].
      change (shr_m (shr_1 {| shr_m := 2 ^ 53; shr_r := false; shr_s := false |}))
        with (2 ^ 52).
      change (2 ^ 52) with (Zpos (Z.to_pos (2 ^ 52))) at 1.
      unfold to_sf. cbn [fst snd]. float_consts.
      replace (Zpos pk + (e - -1074) + 1 + -1074) with (e + Zpos pk + 1) by lia.
      reflexivity.
    + assert (HM : 0 < M) by (assert (0 < 2 ^ 52) by (apply Z.pow_pos_nonneg; lia); lia).
      destruct M as [|pm|pm] eqn:EMp; try lia.
      unfold shr_fexp. cbn [Zdigits2]. rewrite digits2_bits.
      rewrite (bits_unique (Zpos pm) 53) by (change (53 - 1) with 52; lia).
      replace (fexp prec emax (53 + (e + Zpos pk)) - (e + Zpos pk)) with 0
        by (unfold fexp, prec, emax, SpecFloat.emin; lia).
      cbn [shr shr_record_of_loc shr_m].
      unfold to_sf. cbn [fst snd]. float_consts.
      replace (Zpos pk + (e - -1074) + -1074) with (e + Zpos pk) by lia.
      reflexivity.
Qed.

(* ---- rounding keeps the order ---- *)

Lemma round53_lex v w :
  0 < v -> v <= w ->
  0 < (round53 v).1 /\ 0 < (round53 w).1 /\
  ((round53 v).2 < (round53 w).2 \/
   (round53 v).2 = (round53 w).2 /\ (round53 v).1 <= (round53 w).1).
Proof.
  intros Hv Hvw. assert (Hw : 0 < w) by lia.
  pose proof (bits_mono v w Hvw) as Hb.
  assert (P52 : 0 < 2 ^ 52) by (apply Z.pow_pos_nonneg; lia).
  assert (P53 : 2 ^ 53 = 2 * 2 ^ 52) by reflexivity.
  assert (Bv : 53 < bits v -> 2 ^ 52 <= rne v (bits v - 53) <= 2 ^ 53)
    by (intros; apply (rne_bounds v (bits v - 53)); unfold prec; lia).
  assert (Bw : 53 < bits w -> 2 ^ 52 <= rne w (bits w - 53) <= 2 ^ 53)
    by (intros; apply (rne_bounds w (bits w - 53)); unfold prec; lia).
  rewrite !round53_eq.
  destruct (Z.leb_spec (bits v) 53) as [Hv53|Hv53],
           (Z.leb_spec (bits w) 53) as [Hw53|Hw53]; cbn [fst snd]; try lia.
  - specialize (Bw Hw53).
    destruct (Z.eqb_spec (rne w (bits w - 53)) (2 ^ 53)); cbn [fst snd]; lia.
  - specialize (Bv Hv53). specialize (Bw Hw53).
    assert (Hm : bits v = bits w -> rne v (bits v - 53) <= rne w (bits w - 53)).
    { intros E. rewrite E. apply rne_mono; lia. }
    destruct (Z.eqb_spec (rne v (bits v - 53)) (2 ^ 53)),
             (Z.eqb_spec (rne w (bits w - 53)) (2 ^ 53)); cbn [fst snd];
      destruct (Z.eq_dec (bits v) (bits w)) as [E|E];
      try specialize (Hm E); lia.
Qed.

Lemma to_pos_le a b : 0 < a -> a <= b -> (Z.to_pos a <= Z.to_pos b)%positive.
Proof. intros. lia. Qed.

Lemma lex_leb_pos (a b : Z * Z) :
  0 < a.1 -> 0 < b.1 ->
  a.2 < b.2 \/ a.2 = b.2 /\ a.1 <= b.1 ->
  SFleb (to_sf false a) (to_sf false b) = true.
Proof.
  destruct a as [ma ka], b as [mb kb]. cbn [fst snd]. intros Ha Hb H.
  unfold to_sf. cbn [fst snd].
  destruct (Z.leb_spec (ka + emin) (emax - prec)),
           (Z.leb_spec (kb + emin) (emax - prec));
    unfold SFleb, SFcompare; try reflexivity; try lia.
  destruct H as [H|[Hk Hm]].
  - replace (ka + emin ?= kb + emin) with Lt
      by (symmetry; apply Z.compare_lt_iff; lia). reflexivity.
  - replace (ka + emin ?= kb + emin) with Eq
      by (symmetry; apply Z.compare_eq_iff; lia).
    change (Pos.compare_cont Eq (Z.to_pos ma) (Z.to_pos mb))
      with (Pos.compare (Z.to_pos ma) (Z.to_pos mb)).
    pose proof (to_pos_le ma mb Ha Hm) as Hle.
    destruct (Pos.compare_spec (Z.to_pos ma) (Z.to_pos mb)); try reflexivity; lia.
Qed.

Lemma lex_leb_neg (a b : Z * Z) :
  0 < a.1 -> 0 < b.1 ->
  a.2 < b.2 \/ a.2 = b.2 /\ a.1 <= b.1 ->
  SFleb (to_sf true b) (to_sf true a) = true.
Proof.
  destruct a as [ma ka], b as [mb kb]. cbn [fst snd]. intros Ha Hb H.
  unfold to_sf. cbn [fst snd].
  destruct (Z.leb_spec (ka + emin) (emax - prec)),
           (Z.leb_spec (kb + emin) (emax - prec));
    unfold SFleb, SFcompare; try reflexivity; try lia.
  destruct H as [H|[Hk Hm]].
  - replace (kb + emin ?= ka + emin) with Gt
      by (symmetry; apply Z.compare_gt_iff; lia). reflexivity.
  - replace (kb + emin ?= ka + emin) with Eq
      by (symmetry; apply Z.compare_eq_iff; lia).
    change (Pos.compare_cont Eq (Z.to_pos mb) (Z.to_pos ma))
      with (Pos.compare (Z.to_pos mb) (Z.to_pos ma)).
    pose proof (to_pos_le ma mb Ha Hm) as Hle.
    destruct (Pos.compare_spec (Z.to_pos mb) (Z.to_pos ma)); try reflexivity; lia.
Qed.

Lemma rounds_to_mono d1 d2 x1 x2 :
  d1 <= d2 -> rounds_to d1 x1 -> rounds_to d2 x2 -> SFleb x1 x2 = true.
Proof.
  intros Hd H1 H2.
  destruct d1 as [|p1|p1], d2 as [|p2|p2]; cbn [rounds_to] in *; try lia.
  - destruct H1 as [s1 ->], H2 as [s2 ->]. reflexivity.
  - destruct H1 as [s1 ->]. subst x2. unfold to_sf.
    destruct (_ <=? _); reflexivity.
  - subst x1 x2.
    destruct (round53_lex (Zpos p1) (Zpos p2)) as (A & B & C); try lia.
    apply lex_leb_pos; assumption.
  - destruct H2 as [s2 ->]. subst x1. unfold to_sf.
    destruct (_ <=? _); reflexivity.
  - subst x1 x2. unfold to_sf.
    destruct (_ <=? _), (_ <=? _); reflexivity.
  - subst x1 x2. cbn [Z.opp].
    destruct (round53_lex (Zpos p2) (Zpos p1)) as (A & B & C); try lia.
    apply lex_leb_neg; assumption.
Qed.

(* ---- doubles as numbers of units ---- *)

Lemma rounds_to_pos d x :
  0 < d -> x = to_sf false (round53 d) -> rounds_to d x.
Proof. intros Hd H. destruct d; try lia. exact H. Qed.

Lemma rounds_to_neg d x :
  d < 0 -> x = to_sf true (round53 (- d)) -> rounds_to d x.
Proof. intros Hd H. destruct d; try lia. exact H. Qed.

Lemma valid_finite s m e :
  valid_binary (S754_finite s m e) = true ->
  emin <= e <= emax - prec /\ fexp prec emax (bits (Zpos m) + e) = e.
Proof.
  unfold SpecFloat.valid_binary, bounded, canonical_mantissa.
  rewrite digits2_bits. intros H. apply andb_true_iff in H as [H1 H2].
  apply Z.eqb_eq in H1. apply Z.leb_le in H2.
  split; [|exact H1]. split; [|exact H2].
  unfold fexp in H1. lia.
Qed.

Lemma binary_round_valid sx m e :
  valid_binary (S754_finite sx m e) = true ->
  binary_round prec emax sx m e = S754_finite sx m e.
Proof.
  intros H. apply valid_finite in H as [[_ He] Hc].
  unfold binary_round. rewrite digits2_bits, Hc, shl_align_ge by lia.
  rewrite binary_round_aux_exact by exact Hc.
  apply Z.leb_le in He. rewrite He. reflexivity.
Qed.

Lemma round53_valid sx sy m e :
  valid_binary (S754_finite sy m e) = true ->
  to_sf sx (round53 (Zpos m * 2 ^ (e - emin))) = S754_finite sx m e.
Proof.
  intros H.
  assert (H' : valid_binary (S754_finite sx m e) = true) by exact H.
  pose proof (valid_finite _ _ _ H) as [[He _] _].
  rewrite <- binary_round_units by exact He.
  apply binary_round_valid, H'.
Qed.

Lemma valid_order m1 e1 m2 e2 s1 s2 :
  valid_binary (S754_finite s1 m1 e1) = true ->
  valid_binary (S754_finite s2 m2 e2) = true ->
  e1 < e2 ->
  Zpos m1 * 2 ^ (e1 - emin) < Zpos m2 * 2 ^ (e2 - emin).
Proof.
  intros H1 H2 He.
  apply valid_finite in H1 as [[L1 _] C1], H2 as [[L2 _] C2].
  unfold fexp in C1, C2. float_consts.
  pose proof (bits_spec (Zpos m1) ltac:(lia)) as [_ U1].
  pose proof (bits_spec (Zpos m2) ltac:(lia)) as [U2 _].
  assert (B1 : bits (Zpos m1) <= 53) by lia.
  assert (B2 : bits (Zpos m2) = 53) by lia.
  rewrite B2 in U2. change (53 - 1) with 52 in U2.
  assert (U1' : Zpos m1 < 2 ^ 53).
  { eapply Z.lt_le_trans; [exact U1|]. apply Z.pow_le_mono_r; lia. }
  assert (P : 2 * 2 ^ (e1 - -1074) <= 2 ^ (e2 - -1074)).
  { rewrite <- Z.pow_succ_r by lia. apply Z.pow_le_mono_r; lia. }
  assert (0 < 2 ^ (e1 - -1074)) by (apply Z.pow_pos_nonneg; lia).
  change (2 ^ 53) with (2 * 2 ^ 52) in U1'.
  assert (0 < 2 ^ 52) by (apply Z.pow_pos_nonneg; lia).
  nia.
Qed.

Lemma SFleb_units x y :
  valid_binary x = true -> valid_binary y = true ->
  match x with S754_zero _ | S754_finite _ _ _ => True | _ => False end ->
  match y with S754_zero _ | S754_finite _ _ _ => True | _ => False end ->
  SFleb x y = true -> units x <= units y.
Proof.
  intros Vx Vy Fx Fy.
  destruct x as [sx|sx| |sx mx ex], y as [sy|sy| |sy my ey]; try contradiction;
    unfold SFleb, SFcompare, units.
  - lia.
  - assert (0 < Zpos my * 2 ^ (ey - emin))
      by (apply Z.mul_pos_pos; [lia|apply Z.pow_pos_nonneg;
          apply valid_finite in Vy; lia]).
    destruct sy; [discriminate|lia].
  - assert (0 < Zpos mx * 2 ^ (ex - emin))
      by (apply Z.mul_pos_pos; [lia|apply Z.pow_pos_nonneg;
          apply valid_finite in Vx; lia]).
    destruct sx; [lia|discriminate].
  - assert (Px : 0 < Zpos mx * 2 ^ (ex - emin))
      by (apply Z.mul_pos_pos; [lia|apply Z.pow_pos_nonneg;
          apply valid_finite in Vx; lia]).
    assert (Py : 0 < Zpos my * 2 ^ (ey - emin))
      by (apply Z.mul_pos_pos; [lia|apply Z.pow_pos_nonneg;
          apply valid_finite in Vy; lia]).
    change (Pos.compare_cont Eq mx my) with (Pos.compare mx my).
    destruct sx, sy; try lia; try discriminate.
    + destruct (Z.compare_spec ex ey) as [E|L|G]; try discriminate.
      * subst ey. destruct (Pos.compare_spec mx my); try discriminate; intros _; nia.
      * intros _. pose proof (valid_order _ _ _ _ _ _ Vy Vx G). lia.
    + destruct (Z.compare_spec ex ey) as [E|L|G]; try discriminate.
      * subst ey. destruct (Pos.compare_spec mx my); try discriminate; intros _; nia.
      * intros _. pose proof (valid_order _ _ _ _ _ _ Vx Vy L). lia.
Qed.

Lemma SFsub_rounds x y :
  valid_binary x = true -> valid_binary y = true ->
  match x with S754_zero _ | S754_finite _ _ _ => True | _ => False end ->
  match y with S754_zero _ | S754_finite _ _ _ => True | _ => False end ->
  rounds_to (units x - units y) (SFsub prec emax x y).
Proof.
  intros Vx Vy Fx Fy.
  destruct x as [sx|sx| |sx mx ex], y as [sy|sy| |sy my ey]; try contradiction;
    cbn [units SFsub].
  - destruct sx, sy; eexists; reflexivity.
  - assert (Py : 0 < Zpos my * 2 ^ (ey - emin))
      by (apply Z.mul_pos_pos; [lia|apply Z.pow_pos_nonneg;
          apply valid_finite in Vy; lia]).
    destruct sy; cbn [negb].
    + apply rounds_to_pos; [lia|]. symmetry.
      replace (0 - -1 * (Zpos my * 2 ^ (ey - emin)))
        with (Zpos my * 2 ^ (ey - emin)) by lia.
      eapply round53_valid, Vy.
    + apply rounds_to_neg; [lia|]. symmetry.
      replace (- (0 - 1 * (Zpos my * 2 ^ (ey - emin))))
        with (Zpos my * 2 ^ (ey - emin)) by lia.
      eapply round53_valid, Vy.
  - assert (Px : 0 < Zpos mx * 2 ^ (ex - emin))
      by (apply Z.mul_pos_pos; [lia|apply Z.pow_pos_nonneg;
          apply valid_finite in Vx; lia]).
    destruct sx.
    + apply rounds_to_neg; [lia|]. symmetry.
      replace (- (-1 * (Zpos mx * 2 ^ (ex - emin)) - 0))
        with (Zpos mx * 2 ^ (ex - emin)) by lia.
      eapply round53_valid, Vx.
    + apply rounds_to_pos; [lia|]. symmetry.
      replace (1 * (Zpos mx * 2 ^ (ex - emin)) - 0)
        with (Zpos mx * 2 ^ (ex - emin)) by lia.
      eapply round53_valid, Vx.
  - pose proof (valid_finite _ _ _ Vx) as [[Lx _] _].
    pose proof (valid_finite _ _ _ Vy) as [[Ly _] _].
    set (ez := Z.min ex ey).
    destruct (shl_align_le mx ex ez ltac:(lia)) as (ax & -> & Hax).
    destruct (shl_align_le my ey ez ltac:(lia)) as (ay & -> & Hay).
    cbn [fst].
    set (dz := cond_Zopp sx (Zpos ax) - cond_Zopp sy (Zpos ay)).
    assert (Hez : emin <= ez) by lia.
    assert (P : 0 < 2 ^ (ez - emin)) by (apply Z.pow_pos_nonneg; lia).
    assert (HD : (if sx then -1 else 1) * (Zpos mx * 2 ^ (ex - emin))
                 - (if sy then -1 else 1) * (Zpos my * 2 ^ (ey - emin))
                 = dz * 2 ^ (ez - emin)).
    { replace (ex - emin) with (ex - ez + (ez - emin)) by lia.
      replace (ey - emin) with (ey - ez + (ez - emin)) by lia.
      rewrite !Z.pow_add_r by lia.
      unfold dz. rewrite Hax, Hay. destruct sx, sy; cbn [cond_Zopp]; lia. }
    rewrite HD. destruct dz as [|p|p]; cbn [binary_normalize].
    + cbn [Z.mul rounds_to]. eexists; reflexivity.
    + apply rounds_to_pos; [lia|]. apply binary_round_units, Hez.
    + apply rounds_to_neg; [lia|].
      replace (- (Zneg p * 2 ^ (ez - emin))) with (Zpos p * 2 ^ (ez - emin)) by lia.
      apply binary_round_units, Hez.
Qed.

Lemma rounds_to_bounds d x :
  rounds_to d x ->
  SFleb (S754_infinity true) x = true /\ SFleb x (S754_infinity false) = true.
Proof.
  destruct d; cbn [rounds_to].
  - intros [s ->]. split; reflexivity.
  - intros ->. unfold to_sf. destruct (_ <=? _); split; reflexivity.
  - intros ->. unfold to_sf. destruct (_ <=? _); split; reflexivity.
Qed.

(** Subtracting the same finite double keeps the order of two doubles,
    infinite ones included. *)
Lemma SFsub_le_mono x y s :
  valid_binary x = true -> valid_binary y = true -> valid_binary s = true ->
  match s with S754_zero _ | S754_finite _ _ _ => True | _ => False end ->
  SFleb x y = true ->
  SFleb (SFsub prec emax x s) (SFsub prec emax y s) = true.
Proof.
  intros Vx Vy Vs Fs Hxy.
  assert (Fin : forall u,
            valid_binary u = true ->
            match u with S754_zero _ | S754_finite _ _ _ => True | _ => False end ->
            rounds_to (units u - units s) (SFsub prec emax u s))
    by (intros u Vu Fu; apply SFsub_rounds; assumption).
  assert (Inf : forall b, SFsub prec emax (S754_infinity b) s = S754_infinity b)
    by (intros b; destruct s; try contradiction; reflexivity).
  destruct x as [sx|sx| |sx mx ex] eqn:Ex, y as [sy|sy| |sy my ey] eqn:Ey;
    try discriminate;
    rewrite ?Inf;
    try (eapply rounds_to_mono;
         [|apply Fin; [assumption|exact I]|apply Fin; [assumption|exact I]];
         apply Z.sub_le_mono_r; apply SFleb_units; (assumption || exact I)).
  all: try exact Hxy.
  - destruct sy; [discriminate Hxy|].
    apply (proj2 (rounds_to_bounds _ _ (Fin _ Vx I))).
  - destruct sx; [|discriminate Hxy].
    apply (proj1 (rounds_to_bounds _ _ (Fin _ Vy I))).
  - destruct sx; [|discriminate Hxy].
    apply (proj1 (rounds_to_bounds _ _ (Fin _ Vy I))).
  - destruct sy; [destruct sx; discriminate Hxy|].
    apply (proj2 (rounds_to_bounds _ _ (Fin _ Vx I))).
Qed.

Lemma is_finite_shape f :
  is_finite f = true ->
  match Prim2SF f with S754_zero _ | S754_finite _ _ _ => True | _ => False end.
Proof. unfold is_finite. destruct (Prim2SF f); try discriminate; exact (fun _ => I). Qed.

(** [a - s <= b - s] for doubles [a <= b] and a finite double [s]. *)
Lemma sub_le_mono (a b s : float) :
  is_finite s = true ->
  (a <=? b)%float = true -> (a - s <=? b - s)%float = true.
Proof.
  intros Fs Hab. rewrite leb_spec in *. rewrite !sub_spec.
  apply SFsub_le_mono; try apply Prim2SF_valid; [|exact Hab].
  apply is_finite_shape, Fs.
Qed.

(* ================================================================== *)
(** ** Counters and clock *)

Lemma main_tick_counters f g g' :
  main_tick f g = Ok (Running g') ->
  targets_pressed g <= targets_pressed g' /\
  clicks g <= clicks g' /\
  misses g <= misses g' /\
  start_time g' = start_time g.
Proof.
  intros H. apply main_tick_Running in H as (click & g1 & He & Hs & _).
  apply handle_events_counters in He as (A1&A2&A3&A4&_).
  apply for_targets_counters in Hs as (B1&B2&B3&B4&_).
  repeat split; try congruence; lia.
Qed.

Lemma end_screen_wait_final s fs :
  end_screen_wait s fs = Ended s \/ end_screen_wait s fs = Exited.
Proof.
  induction fs as [|f fs IH]; simpl; [left; reflexivity|].
  destruct (leaves _); [right; reflexivity|exact IH].
Qed.

Lemma main_loop_counters fs g g' :
  main_loop fs g = Ok (Running g') ->
  targets_pressed g <= targets_pressed g' /\
  clicks g <= clicks g' /\
  misses g <= misses g' /\
  start_time g' = start_time g.
Proof.
  revert g. induction fs as [|f fs IH]; intros g; simpl.
  - intros [= <-]. repeat split; lia.
  - intros H. apply bind_Ok in H as (o & Ht & H).
    destruct o as [g1|s|]; [| |discriminate].
    + apply main_tick_counters in Ht as (A1&A2&A3&A4).
      apply IH in H as (B1&B2&B3&B4).
      repeat split; try lia. congruence.
    + injection H as H. destruct (end_screen_wait_final s fs); congruence.
Qed.

(** C8, as the code has it.  From an iteration of a session to any later
    state of it, the counters of hits, of presses and of misses do not
    decrease and [start_time] is not assigned again.  The elapsed time is
    not a counter: every iteration computes it anew as the reading of the
    clock minus [start_time], and that is the time its panel is computed
    from (top bar or summary).  From an iteration to a later one it does
    not decrease, provided [start_time] is a finite number and the later
    reading of the clock is not the smaller one. *)
Theorem counters_never_decrease f1 fs g g1 g2 :
  main_tick f1 g = Ok (Running g1) ->
  main_loop fs g1 = Ok (Running g2) ->
  (targets_pressed g <= targets_pressed g2 /\
   clicks g <= clicks g2 /\
   misses g <= misses g2 /\
   start_time g2 = start_time g) /\
  shown_with (now f1 - start_time g) (Running g1) /\
  forall f2 o,
    main_tick f2 g2 = Ok o ->
    shown_with (now f2 - start_time g) o /\
    (is_finite (start_time g) = true ->
     (now f1 <=? now f2)%float = true ->
     (now f1 - start_time g <=? now f2 - start_time g)%float = true).
Proof.
  intros H1 H2.
  (* an iteration computes its panel from the clock minus [start_time] *)
  assert (Shown : forall f g0 o,
            main_tick f g0 = Ok o -> shown_with (now f - start_time g0) o).
  { clear. intros f g o. unfold main_tick. fold (elapsed f g).
    destruct (handle_events (events f) false g) as [[run click] g1].
    intros H. apply bind_Ok in H as (g2 & _ & H).
    destruct (LIVES <=? misses g2).
    - apply bind_Ok in H as (s & Hs & [= <-]). cbn [shown_with].
      split; [|eauto].
      unfold end_screen in Hs.
      apply bind_Ok in Hs as (q & _ & Hs).
      apply bind_Ok in Hs as (a & _ & [= <-]). reflexivity.
    - apply bind_Ok in H as ([speed lives] & Hd & [= <-]).
      destruct run; cbn [shown_with]; [|exact I].
      exists speed. rewrite Hd. unfold draw_top_bar in Hd.
      apply bind_Ok in Hd as (q & _ & [= _ <-]). reflexivity. }
  pose proof (main_tick_counters _ _ _ H1) as (A1 & A2 & A3 & A4).
  pose proof (main_loop_counters _ _ _ H2) as (B1 & B2 & B3 & B4).
  assert (Hst : start_time g2 = start_time g) by congruence.
  split; [repeat split; try lia; exact Hst|].
  split; [apply Shown, H1|].
  intros f2 o H3. split.
  - rewrite <- Hst. apply Shown, H3.
  - intros Fs Hle. apply sub_le_mono; assumption.
Qed.

Lemma counters_never_decrease_witness :
  main_tick (one_press_frame 1) (init_game 0)
  = Ok (Running (mkGame [] 0 1 0 0%float 0)) /\
  main_loop (map one_press_frame (seq 2 838)) (mkGame [] 0 1 0 0%float 0)
  = Ok (Running before_third_miss) /\
  (targets_pressed (init_game 0) <= targets_pressed before_third_miss /\
   clicks (init_game 0) <= clicks before_third_miss /\
   misses (init_game 0) <= misses before_third_miss /\
   start_time before_third_miss = start_time (init_game 0)) /\
  shown_with (now (one_press_frame 1) - start_time (init_game 0))
    (Running (mkGame [] 0 1 0 0%float 0)) /\
  forall f2 o,
    main_tick f2 before_third_miss = Ok o ->
    shown_with (now f2 - start_time (init_game 0)) o /\
    (is_finite (start_time (init_game 0)) = true ->
     (now (one_press_frame 1) <=? now f2)%float = true ->
     (now (one_press_frame 1) - start_time (init_game 0)
      <=? now f2 - start_time (init_game 0))%float = true).
Proof.
  assert (H1 : main_tick (one_press_frame 1) (init_game 0)
               = Ok (Running (mkGame [] 0 1 0 0%float 0)))
    by (vm_compute; reflexivity).
  assert (H2 : main_loop (map one_press_frame (seq 2 838))
                 (mkGame [] 0 1 0 0%float 0)
               = Ok (Running before_third_miss))
    by (vm_compute; reflexivity).
  split; [exact H1|]. split; [exact H2|].
  exact (counters_never_decrease (one_press_frame 1)
           (map one_press_frame (seq 2 838)) (init_game 0)
           (mkGame [] 0 1 0 0%float 0) before_third_miss H1 H2).
Defined.

(** With the clock left alone, frame 840 of the session with one press
    is read at 14 seconds: the summary shows a time that is not below
    the 13.98 seconds of the iteration before. *)
Example elapsed_time_with_clock :
  exists s,
    main_tick (one_press_frame 840) before_third_miss = Ok (Ended s) /\
    sum_time s = 14%float /\
    (now (one_press_frame 839) - start_time two_lives_lost
     <=? sum_time s)%float = true.
Proof. eexists. repeat split; vm_compute; reflexivity. Qed.

(** C8, as stated, fails for the elapsed time.  In the session with one
    press the iteration of frame 839 computes its top bar with an elapsed
    time of 13.98 seconds; the clock is then set back, and the iteration
    that follows, in which the last life is lost, shows a summary with a
    time of three seconds. *)
Lemma elapsed_time_decreases :
  ~ (forall f1 fs g g1 g2,
       reachable g ->
       main_tick f1 g = Ok (Running g1) ->
       main_loop fs g1 = Ok (Running g2) ->
       forall f2 s,
         main_tick f2 g2 = Ok (Ended s) ->
         (now f1 - start_time g <=? sum_time s)%float = true).
Proof.
  intros H.
  assert (Hr : reachable two_lives_lost)
    by (exists 0%float, (one_press_session 838); vm_compute; reflexivity).
  assert (H1 : main_tick (one_press_frame 839) two_lives_lost
               = Ok (Running before_third_miss))
    by (vm_compute; reflexivity).
  assert (H2 : main_loop [] before_third_miss = Ok (Running before_third_miss))
    by reflexivity.
  assert (H3 : main_tick clock_set_back before_third_miss
               = Ok (Ended late_summary))
    by (vm_compute; reflexivity).
  pose proof (H _ _ _ _ _ Hr H1 H2 _ _ H3) as E.
  vm_compute in E. discriminate.
Qed.

(* ================================================================== *)
(** ** The end of a session *)

Lemma running_means_lives_left f g g' :
  main_tick f g = Ok (Running g') -> misses g' < LIVES.
Proof.
  intros H. apply main_tick_Running in H as (click & g1 & _ & _ & H). exact H.
Qed.

(** When the sweep leaves [LIVES] misses or more, the iteration enters
    [end_screen]: it shows the summary unless one of its two divisions
    raises. *)
Lemma lives_lost f g run click g1 g2 :
  handle_events (events f) false g = (run, click, g1) ->
  for_targets (length (targets g1)) 0 click (mouse_pos f) g1 = Ok g2 ->
  LIVES <= misses g2 ->
  main_tick f g =
    (let! s := end_screen (elapsed f g) (targets_pressed g2) (clicks g2) in
     Ok (Ended s)) /\
  (clicks g2 <> 0 -> (elapsed f g =? 0)%float = false ->
   exists s, main_tick f g = Ok (Ended s)).
Proof.
  intros He Hs Hl. unfold main_tick. rewrite He, Hs. cbn [bind].
  apply Z.leb_le in Hl. rewrite Hl. split; [reflexivity|].
  intros Hc Ht. unfold end_screen, accuracy, truediv_int_float, truediv_int_int.
  rewrite Ht. apply Z.eqb_neq in Hc. rewrite Hc. cbn [bind]. eauto.
Qed.

(** Once the summary is shown the loop of [main] is never resumed. *)
Lemma ended_never_resumes fs g s :
  main_loop fs g = Ok (Ended s) ->
  forall fs', main_loop (fs ++ fs') g = Ok (Ended s) \/
              main_loop (fs ++ fs') g = Ok Exited.
Proof.
  revert g. induction fs as [|f fs IH]; intros g; simpl; [discriminate|].
  intros H fs'. destruct (main_tick f g) as [[g1|s1|]| |]; cbn [bind] in *;
    try discriminate.
  - apply IH, H.
  - injection H as H.
    assert (Hw : forall fs0, end_screen_wait s1 fs0 = Ended s ->
                 s1 = s /\ forall fs1, end_screen_wait s1 (fs0 ++ fs1) = end_screen_wait s1 fs1).
    { intros fs0. induction fs0 as [|f0 fs0 IH0]; simpl.
      - intros [= ->]. split; reflexivity.
      - destruct (leaves _); [discriminate|]. exact IH0. }
    destruct (Hw fs H) as [-> Hw']. rewrite Hw'.
    destruct (end_screen_wait_final s fs') as [E|E]; rewrite E; auto.
Qed.

(** C2: the session of a player who never presses a button.  After 839
    frames two targets are missed and the loop is running; in frame 840
    the third one is missed, and the iteration neither goes on nor shows
    the summary: [end_screen] divides by the number of presses. *)
Theorem third_miss_without_press :
  main 0 (idle_session 839) = Ok (Running last_life) /\
  misses last_life = LIVES - 1 /\
  clicks last_life = 0 /\
  main_tick (idle_frame 840) last_life = Raise ZeroDivisionError.
Proof. repeat split; vm_compute; reflexivity. Qed.

(** C4: the same session, run from the start, ends in an exception. *)
Theorem idle_session_raises :
  main 0 (idle_session 840) = Raise ZeroDivisionError.
Proof. vm_compute. reflexivity. Qed.

(** C5: with no press at all there is no accuracy: the division raises,
    in [accuracy] and so in [end_screen], whatever the time. *)
Theorem accuracy_without_press elapsed_time :
  accuracy 0 0 = Raise ZeroDivisionError /\
  end_screen elapsed_time 0 0 = Raise ZeroDivisionError.
Proof.
  split; [reflexivity|].
  unfold end_screen, truediv_int_float.
  destruct (_ =? 0)%float; reflexivity.
Qed.

(** With a press or more, up to a hundred of them, the accuracy is
    computed and lies between 0 and 100. *)
Lemma accuracy_in_range_sample :
  below 101
    (fun c =>
       below (S c)
         (fun h =>
            match accuracy (Z.of_nat h) (Z.of_nat c) with
            | Ok a => (0 <=? a)%float && (a <=? 100)%float
            | _ => Nat.eqb c 0
            end)) = true.
Proof. vm_compute. reflexivity. Qed.

(** C7: the press of [press] hits the first of the two targets of
    [before_press]; the second one, which was in the list when the sweep
    began, is left as it was: it is not updated (an update would have made
    it larger) and it stays in the list although the point pressed is
    within its radius after an update. *)
Theorem press_skips_second_target :
  main 0 two_targets = Ok (Running before_press) /\
  main_tick press before_press = Ok (Running after_press) /\
  exists a b,
    targets before_press = [a; b] /\
    targets after_press = [b] /\
    (Target.size b <? Target.size (Target.update b))%float = true /\
    Target.collide (Target.update b) 31 80 = true /\
    targets_pressed after_press = targets_pressed before_press + 1 /\
    misses after_press = misses before_press.
Proof.
  split; [vm_compute; reflexivity|]. split; [vm_compute; reflexivity|].
  eexists _, _. repeat split; vm_compute; reflexivity.
Qed.

(* ================================================================== *)
(** ** Bookkeeping of the loop *)

Section Sweep.
Variables (click : bool) (pos : Z * Z).
Variable P : game -> Prop.
Hypothesis P_step : forall i t g g1,
  invariant g -> targets g !! i = Some t ->
  visited i t click pos g g1 -> P g -> P g1.

(** A property that every visit keeps holds after the sweep. *)
Lemma for_targets_visits fuel i g g' :
  invariant g -> P g ->
  for_targets fuel i click pos g = Ok g' -> P g'.
Proof.
  revert i g. induction fuel as [|fuel IH]; intros i g Hinv HP; simpl.
  - destruct (targets g !! i); [discriminate|]. intros [= <-]. exact HP.
  - destruct (targets g !! i) eqn:Hi; [|intros [= <-]; exact HP].
    intros H. apply bind_Ok in H as (g1 & Hv & H).
    assert (Hvis : visited i t click pos g g1)
      by (apply visit_visited; [apply Hinv|exact Hi|exact Hv]).
    eapply IH; [|eapply P_step; eassumption|exact H].
    eapply visited_invariant; eassumption.
Qed.
End Sweep.

Lemma visited_accounted i t click pos g g1 :
  targets g !! i = Some t -> visited i t click pos g g1 ->
  accounted g -> accounted g1.
Proof.
  intros Hi Hv. unfold accounted.
  assert (Hlen : (i < length (targets g))%nat) by (eapply lookup_lt_Some, Hi).
  destruct Hv; cbn [targets targets_pressed misses fresh];
    rewrite ?length_insert, ?length_delete by eauto; lia.
Qed.

Lemma handle_events_accounted evs click g run click' g' :
  accounted g -> handle_events evs click g = (run, click', g') -> accounted g'.
Proof.
  revert click g. induction evs as [|e evs IH]; intros click g Ha; simpl.
  - intros [= _ _ <-]. exact Ha.
  - destruct e; try (apply IH; assumption).
    + intros [= _ _ <-]. exact Ha.
    + apply IH. unfold accounted, spawn in *.
      cbn [targets targets_pressed misses fresh]. rewrite length_app. simpl. lia.
Qed.

Lemma main_tick_accounted f g g' :
  invariant g -> accounted g -> main_tick f g = Ok (Running g') -> accounted g'.
Proof.
  intros Hinv Ha H. apply main_tick_Running in H as (click & g1 & He & Hs & _).
  eapply (for_targets_visits click (mouse_pos f) accounted); [| | |exact Hs].
  - intros i t g0 g2 _ Hi Hv. eapply visited_accounted; eassumption.
  - eapply handle_events_invariant; eassumption.
  - eapply handle_events_accounted; eassumption.
Qed.

Lemma main_loop_Running_ind (P : game -> Prop) :
  (forall f g g', invariant g -> P g -> main_tick f g = Ok (Running g') -> P g') ->
  forall fs g g', invariant g -> P g -> main_loop fs g = Ok (Running g') -> P g'.
Proof.
  intros Hstep fs. induction fs as [|f fs IH]; intros g g' Hinv HP; simpl.
  - intros [= <-]. exact HP.
  - intros H. apply bind_Ok in H as (o & Ht & H).
    destruct o as [g1|s|]; [| |discriminate].
    + eapply IH; [| |exact H].
      * eapply main_tick_invariant; eassumption.
      * eapply Hstep; eassumption.
    + injection H as H. destruct (end_screen_wait_final s fs); congruence.
Qed.

(** X1. In every state the running loop reaches, the targets constructed
    so far are the targets of the collection, the hits and the misses:
    none is lost and none is counted twice. *)
Theorem spawned_targets_accounted g :
  reachable g ->
  Z.of_nat (fresh g)
  = Z.of_nat (length (targets g)) + targets_pressed g + misses g.
Proof.
  intros (t0 & fs & H).
  eapply (main_loop_Running_ind accounted); [| | |exact H].
  - intros f g0 g1. apply main_tick_accounted.
  - apply init_invariant.
  - reflexivity.
Qed.

Lemma spawned_targets_accounted_witness :
  reachable after_press /\
  Z.of_nat (fresh after_press)
  = Z.of_nat (length (targets after_press))
    + targets_pressed after_press + misses after_press.
Proof.
  assert (H : reachable after_press)
    by (exists 0%float, (two_targets ++ [press]); vm_compute; reflexivity).
  split; [exact H|exact (spawned_targets_accounted after_press H)].
Defined.

(* ================================================================== *)
(** ** Events *)

Lemma count_events_app p evs1 evs2 :
  count_events p (evs1 ++ evs2) = count_events p evs1 + count_events p evs2.
Proof. induction evs1 as [|e evs1 IH]; simpl; lia. Qed.

Lemma count_events_nonneg p evs : 0 <= count_events p evs.
Proof. induction evs as [|e evs IH]; simpl; [lia|]. destruct (p e); lia. Qed.

(** What the loop over the events does, by counting: it stops at the
    first [QUIT]; if there is none, every timer event has constructed a
    target and every press is counted. *)
Lemma handle_events_counts evs click g run click' g' :
  handle_events evs click g = (run, click', g') ->
  run = negb (existsb is_quit evs) /\
  (run = true ->
   clicks g' = clicks g + count_events is_press evs /\
   Z.of_nat (fresh g') = Z.of_nat (fresh g) + count_events is_spawn evs /\
   click' = click || (0 <? count_events is_press evs)).
Proof.
  revert click g. induction evs as [|e evs IH]; intros click g; simpl.
  - intros [= <- <- <-]. split; [reflexivity|]. intros _.
    rewrite orb_false_r. repeat split; lia.
  - destruct e; simpl.
    + intros [= <- _ _]. split; [reflexivity|discriminate].
    + intros H. apply IH in H as [Hr H]. split; [exact Hr|].
      intros Ht. destruct (H Ht) as (A & B & C). cbn in *.
      repeat split; try assumption; lia.
    + intros H. apply IH in H as [Hr H]. split; [exact Hr|].
      intros Ht. destruct (H Ht) as (A & B & C). cbn in *.
      pose proof (count_events_nonneg is_press evs).
      repeat split; try assumption; try lia.
      rewrite C. cbn [orb].
      symmetry. apply orb_true_iff. right. apply Z.ltb_lt. lia.
    + intros H. apply IH in H as [Hr H]. split; [exact Hr|].
      intros Ht. destruct (H Ht) as (A & B & C). repeat split; assumption || lia.
    + intros H. apply IH in H as [Hr H]. split; [exact Hr|].
      intros Ht. destruct (H Ht) as (A & B & C). repeat split; assumption || lia.
Qed.

(** An iteration after which the loop goes on handled all its events. *)
Lemma main_tick_Running_events f g g' :
  main_tick f g = Ok (Running g') ->
  existsb is_quit (events f) = false /\
  clicks g' = clicks g + count_events is_press (events f) /\
  Z.of_nat (fresh g') = Z.of_nat (fresh g) + count_events is_spawn (events f).
Proof.
  intros H. apply main_tick_Running in H as (click & g1 & He & Hs & _).
  apply handle_events_counts in He as [Hr He].
  destruct (He eq_refl) as (A & B & _).
  apply for_targets_counters in Hs as (_ & C & _ & _ & D).
  split; [apply negb_true_iff; symmetry; exact Hr|].
  split; congruence.
Qed.

(** X2. While the loop is running, [clicks] is the number of
    [MOUSEBUTTONDOWN] events of all the frames read so far, the number of
    targets constructed is the number of timer events, and no [QUIT] was
    among the events. *)
Theorem presses_and_spawns_counted t0 fs g :
  main t0 fs = Ok (Running g) ->
  clicks g = count_events is_press (all_events fs) /\
  Z.of_nat (fresh g) = count_events is_spawn (all_events fs) /\
  count_events is_quit (all_events fs) = 0.
Proof.
  unfold main.
  assert (G : forall fs g0 g,
    main_loop fs g0 = Ok (Running g) ->
    clicks g = clicks g0 + count_events is_press (all_events fs) /\
    Z.of_nat (fresh g)
    = Z.of_nat (fresh g0) + count_events is_spawn (all_events fs) /\
    count_events is_quit (all_events fs) = 0).
  { clear. intros fs. induction fs as [|f fs IH]; intros g0 g; simpl.
    - intros [= <-]. cbn. repeat split; lia.
    - intros H. apply bind_Ok in H as (o & Ht & H).
      destruct o as [g1|s|]; [| |discriminate].
      + apply main_tick_Running_events in Ht as (Q & A & B).
        apply IH in H as (A' & B' & Q').
        unfold all_events in *. cbn [map concat].
        rewrite !count_events_app.
        assert (count_events is_quit (events f) = 0).
        { clear -Q. induction (events f) as [|e l IHl]; simpl in *; [lia|].
          apply orb_false_iff in Q as [Q1 Q2]. rewrite Q1. rewrite IHl by exact Q2. lia. }
        repeat split; lia.
      + injection H as H. destruct (end_screen_wait_final s fs); congruence. }
  intros H. apply G in H as (A & B & C). cbn in A, B. repeat split; assumption || lia.
Qed.

Lemma presses_and_spawns_counted_witness :
  main 0 (two_targets ++ [press]) = Ok (Running after_press) /\
  clicks after_press
  = count_events is_press (all_events (two_targets ++ [press])) /\
  Z.of_nat (fresh after_press)
  = count_events is_spawn (all_events (two_targets ++ [press])) /\
  count_events is_quit (all_events (two_targets ++ [press])) = 0.
Proof.
  assert (H : main 0 (two_targets ++ [press]) = Ok (Running after_press))
    by (vm_compute; reflexivity).
  split; [exact H|].
  exact (presses_and_spawns_counted 0 (two_targets ++ [press]) after_press H).
Defined.

Lemma visit_without_click i t pos g g' :
  visit i t false pos g = Ok g' -> targets_pressed g' = targets_pressed g.
Proof.
  unfold visit, set_targets. cbn [targets andb].
  intros H. apply bind_Ok in H as (g1 & H1 & [= <-]).
  destruct (Target.size _ <=? 0)%float.
  - apply bind_Ok in H1 as (l & _ & [= <-]). reflexivity.
  - injection H1 as <-. reflexivity.
Qed.

Lemma for_targets_without_click fuel i pos g g' :
  for_targets fuel i false pos g = Ok g' ->
  targets_pressed g' = targets_pressed g.
Proof.
  revert i g. induction fuel as [|fuel IH]; intros i g; simpl.
  - destruct (targets g !! i); [discriminate|]. intros [= <-]. reflexivity.
  - destruct (targets g !! i) eqn:Hi; [|intros [= <-]; reflexivity].
    intros H. apply bind_Ok in H as (g1 & Hv & H).
    apply visit_without_click in Hv. apply IH in H. congruence.
Qed.

(** X3. An iteration whose events hold no press scores no hit and
    counts no press, wherever the pointer is. *)
Theorem no_press_no_hit f g g' :
  main_tick f g = Ok (Running g') ->
  count_events is_press (events f) = 0 ->
  targets_pressed g' = targets_pressed g /\ clicks g' = clicks g.
Proof.
  intros H H0.
  pose proof (main_tick_Running_events _ _ _ H) as (_ & Hc & _).
  apply main_tick_Running in H as (click & g1 & He & Hs & _).
  pose proof (handle_events_counters _ _ _ _ _ _ He) as (A & _).
  apply handle_events_counts in He as [_ He].
  destruct (He eq_refl) as (_ & _ & C). rewrite H0 in C. simpl in C. subst click.
  apply for_targets_without_click in Hs. split; [congruence|lia].
Qed.

Lemma no_press_no_hit_witness :
  main_tick quiet before_press = Ok (Running after_quiet) /\
  count_events is_press (events quiet) = 0 /\
  targets_pressed after_quiet = targets_pressed before_press /\
  clicks after_quiet = clicks before_press.
Proof.
  assert (H1 : main_tick quiet before_press = Ok (Running after_quiet))
    by (vm_compute; reflexivity).
  assert (H2 : count_events is_press (events quiet) = 0) by reflexivity.
  split; [exact H1|]. split; [exact H2|].
  exact (no_press_no_hit quiet before_press after_quiet H1 H2).
Defined.

Lemma handle_events_quit evs1 evs2 click g :
  handle_events (evs1 ++ QUIT :: evs2) click g
  = handle_events (evs1 ++ [QUIT]) click g.
Proof.
  revert click g. induction evs1 as [|e evs1 IH]; intros click g; simpl;
    [reflexivity|].
  destruct e; try apply IH. reflexivity.
Qed.

(** X7. The loop over the events stops at the first [QUIT]: the events
    behind it in the queue have no effect on the iteration (a press is
    not counted, a timer event constructs no target). *)
Theorem quit_discards_later_events t pos evs1 evs2 g :
  main_tick (mkFrame t pos (evs1 ++ QUIT :: evs2)) g
  = main_tick (mkFrame t pos (evs1 ++ [QUIT])) g.
Proof.
  unfold main_tick, elapsed. cbn [events mouse_pos].
  rewrite handle_events_quit. reflexivity.
Qed.

(** X8. An iteration ends the process exactly when its events hold a
    [QUIT] (and the end screen is not reached); the loop goes on only
    when they hold none. *)
Theorem exit_only_on_quit f g o :
  main_tick f g = Ok o ->
  match o with
  | Running _ => existsb is_quit (events f) = false
  | Exited => existsb is_quit (events f) = true
  | Ended _ => True
  end.
Proof.
  unfold main_tick.
  destruct (handle_events (events f) false g) as [[run click] g1] eqn:He.
  apply handle_events_counts in He as [Hr _].
  intros H. apply bind_Ok in H as (g2 & _ & H).
  destruct (LIVES <=? misses g2).
  - apply bind_Ok in H as (s & _ & [= <-]). exact I.
  - apply bind_Ok in H as (b & _ & [= <-]).
    destruct run; [apply negb_true_iff|apply negb_false_iff]; symmetry; exact Hr.
Qed.

Lemma exit_only_on_quit_witness :
  main_tick (frame_at 361 (0, 0) [QUIT]) before_press = Ok Exited /\
  existsb is_quit (events (frame_at 361 (0, 0) [QUIT])) = true.
Proof.
  assert (H : main_tick (frame_at 361 (0, 0) [QUIT]) before_press = Ok Exited)
    by (vm_compute; reflexivity).
  split; [exact H|].
  exact (exit_only_on_quit (frame_at 361 (0, 0) [QUIT]) before_press Exited H).
Defined.

(** X9. The loop of [end_screen] leaves the process when a frame
    brings a [QUIT] or a key press, and only then; until then the summary
    stays as it was shown. *)
Theorem end_screen_leaves_on_key_or_quit s fs :
  (end_screen_wait s fs = Exited <->
   exists f e, f ∈ fs /\ e ∈ events f /\ (e = QUIT \/ e = KEYDOWN)) /\
  (end_screen_wait s fs <> Exited -> end_screen_wait s fs = Ended s).
Proof.
  split; [|destruct (end_screen_wait_final s fs); congruence].
  assert (L : forall evs, leaves evs = true <->
                exists e, e ∈ evs /\ (e = QUIT \/ e = KEYDOWN)).
  { intros evs. unfold leaves. rewrite existsb_exists. split.
    - intros (e & Hin & He). exists e. split; [apply list_elem_of_In, Hin|].
      destruct e; try discriminate; auto.
    - intros (e & Hin & He). exists e. split; [apply list_elem_of_In, Hin|].
      destruct He as [-> | ->]; reflexivity. }
  induction fs as [|f fs IH]; simpl.
  - split; [discriminate|]. intros (f & e & Hf & _). inversion Hf.
  - destruct (leaves (events f)) eqn:Hl.
    + split; [|reflexivity]. intros _. apply L in Hl as (e & He & Hk).
      exists f, e. split; [apply elem_of_cons; left; reflexivity|auto].
    + rewrite IH. split.
      * intros (f' & e & Hf & He). exists f', e.
        split; [apply elem_of_cons; right; exact Hf|exact He].
      * intros (f' & e & Hf & He & Hk).
        apply elem_of_cons in Hf as [->|Hf]; [|eauto].
        exfalso. assert (leaves (events f) = true) by (apply L; eauto). congruence.
Qed.

(* ================================================================== *)
(** ** Lives and the first seconds *)

Lemma reachable_counters g :
  reachable g -> 0 <= targets_pressed g /\ 0 <= clicks g /\ 0 <= misses g.
Proof.
  intros (t0 & fs & H).
  eapply (main_loop_Running_ind
            (fun g => 0 <= targets_pressed g /\ 0 <= clicks g /\ 0 <= misses g));
    [| | |exact H].
  - intros f g0 g1 _ (A & B & C) Ht.
    apply main_tick_counters in Ht as (A' & B' & C' & _). lia.
  - apply init_invariant.
  - cbn. lia.
Qed.

(** X6. Whenever the loop goes on after an iteration, the top bar of
    that iteration was computed without raising, and the number of lives
    it shows, [LIVES - misses], is between 1 and [LIVES]. *)
Theorem lives_shown f g g' :
  reachable g -> main_tick f g = Ok (Running g') ->
  exists speed,
    draw_top_bar (elapsed f g) (targets_pressed g') (misses g')
    = Ok (speed, LIVES - misses g') /\
    1 <= LIVES - misses g' <= LIVES.
Proof.
  intros Hr Ht.
  assert (Hm : 0 <= misses g' < LIVES).
  { split; [|eapply running_means_lives_left, Ht].
    apply reachable_counters in Hr as (_ & _ & Hm).
    apply main_tick_counters in Ht as (_ & _ & Hm' & _). lia. }
  revert Ht. unfold main_tick.
  destruct (handle_events (events f) false g) as [[run click] g1].
  intros H. apply bind_Ok in H as (g2 & _ & H).
  destruct (LIVES <=? misses g2).
  - apply bind_Ok in H as (s & _ & [=]).
  - apply bind_Ok in H as ([speed lives] & Hd & H).
    destruct run; [|discriminate]. injection H as <-.
    exists speed. split; [|lia].
    rewrite Hd. unfold draw_top_bar in Hd.
    apply bind_Ok in Hd as (q & _ & [= _ <-]). reflexivity.
Qed.

Lemma lives_shown_witness :
  reachable before_press /\
  main_tick press before_press = Ok (Running after_press) /\
  exists speed,
    draw_top_bar (elapsed press before_press) (targets_pressed after_press)
      (misses after_press)
    = Ok (speed, LIVES - misses after_press) /\
    1 <= LIVES - misses after_press <= LIVES.
Proof.
  assert (H1 : reachable before_press)
    by (exists 0%float, two_targets; vm_compute; reflexivity).
  assert (H2 : main_tick press before_press = Ok (Running after_press))
    by (vm_compute; reflexivity).
  split; [exact H1|]. split; [exact H2|].
  exact (lives_shown press before_press after_press H1 H2).
Defined.

(* ---- the grace period ---- *)

Lemma aged_weaken j j' t : (j <= j')%nat -> aged j t -> aged j' t.
Proof. intros Hj (k & Hk & Hu). exists k. split; [lia|exact Hu]. Qed.

Lemma aged_update_positive j t :
  (S j < LIFETIME)%nat -> aged j t ->
  (Target.size (Target.update t) <=? 0)%float = false /\
  aged (S j) (Target.update t).
Proof.
  intros Hj (k & Hk & Hu). apply updated_update in Hu. split.
  - replace (Target.size (Target.update t)) with (track (S k)).1
      by (rewrite <- Hu; reflexivity).
    apply track_positive. lia.
  - exists (S k). split; [lia|exact Hu].
Qed.

Lemma sweeping_done j i l : sweeping j i l -> Forall (aged (S j)) l.
Proof.
  intros H. apply Forall_lookup. intros i' t Hi. apply H in Hi.
  destruct (i' <? i)%nat; [exact Hi|eapply aged_weaken; [|exact Hi]; lia].
Qed.

Lemma for_targets_grace j fuel i click pos g g' :
  (S j < LIFETIME)%nat -> invariant g -> sweeping j i (targets g) ->
  for_targets fuel i click pos g = Ok g' ->
  misses g' = misses g /\ Forall (aged (S j)) (targets g').
Proof.
  intros Hj. revert i g. induction fuel as [|fuel IH]; intros i g Hinv Hsw; simpl.
  - destruct (targets g !! i); [discriminate|]. intros [= <-].
    split; [reflexivity|eapply sweeping_done, Hsw].
  - destruct (targets g !! i) eqn:Hi;
      [|intros [= <-]; split; [reflexivity|eapply sweeping_done, Hsw]].
    intros H. apply bind_Ok in H as (g1 & Hv & H).
    assert (Hvis : visited i t click pos g g1)
      by (apply visit_visited; [apply Hinv|exact Hi|exact Hv]).
    assert (Hinv1 : invariant g1) by (eapply visited_invariant; eassumption).
    assert (Ht : aged j t).
    { pose proof (Hsw i t Hi) as Ha. rewrite Nat.ltb_irrefl in Ha. exact Ha. }
    destruct (aged_update_positive j t Hj Ht) as [Hpos Hup].
    assert (Hlt : (i < length (targets g))%nat) by (eapply lookup_lt_Some, Hi).
    assert (Hm1 : misses g1 = misses g /\ sweeping j (S i) (targets g1)).
    { destruct Hvis as [_ _|Hz _|_ _]; cbn [misses targets];
        [|congruence|]; (split; [reflexivity|]); intros i' t' Hi'.
      - destruct (decide (i = i')) as [<-|Hne].
        + rewrite list_lookup_insert_eq in Hi' by exact Hlt.
          injection Hi' as <-.
          replace (i <? S i)%nat with true by (symmetry; apply Nat.ltb_lt; lia).
          exact Hup.
        + rewrite list_lookup_insert_ne in Hi' by exact Hne.
          pose proof (Hsw i' t' Hi') as Ha.
          destruct (i' <? i)%nat eqn:E1, (i' <? S i)%nat eqn:E2; try exact Ha.
          * apply Nat.ltb_lt in E1. apply Nat.ltb_ge in E2. lia.
          * eapply aged_weaken; [|exact Ha]. lia.
      - destruct (Nat.lt_ge_cases i' i) as [Hl|Hg].
        + rewrite list_lookup_delete_lt in Hi' by exact Hl.
          pose proof (Hsw i' t' Hi') as Ha.
          replace (i' <? i)%nat with true in Ha by (symmetry; apply Nat.ltb_lt; lia).
          replace (i' <? S i)%nat with true by (symmetry; apply Nat.ltb_lt; lia).
          exact Ha.
        + rewrite list_lookup_delete_ge in Hi' by exact Hg.
          pose proof (Hsw (S i') t' Hi') as Ha.
          replace (S i' <? i)%nat with false in Ha by (symmetry; apply Nat.ltb_ge; lia).
          destruct (i' <? S i)%nat; [eapply aged_weaken; [|exact Ha]; lia|exact Ha]. }
    destruct Hm1 as [Hm1 Hsw1].
    destruct (IH (S i) g1 Hinv1 Hsw1 H) as [Hm Hf]. split; [congruence|exact Hf].
Qed.

Lemma handle_events_aged j evs click g run click' g' :
  Forall (aged j) (targets g) ->
  handle_events evs click g = (run, click', g') ->
  Forall (aged j) (targets g').
Proof.
  revert click g. induction evs as [|e evs IH]; intros click g Ha; simpl.
  - intros [= _ _ <-]. exact Ha.
  - destruct e; try (apply IH; assumption).
    + intros [= _ _ <-]. exact Ha.
    + apply IH. unfold spawn. cbn [targets]. apply Forall_app. split; [exact Ha|].
      apply Forall_singleton. exists 0%nat. split; [lia|apply updated_init].
Qed.

Lemma main_tick_grace j f g o :
  (S j < LIFETIME)%nat -> invariant g ->
  Forall (aged j) (targets g) -> misses g = 0 ->
  main_tick f g = Ok o ->
  match o with
  | Running g' => invariant g' /\ Forall (aged (S j)) (targets g') /\ misses g' = 0
  | Ended _ => False
  | Exited => True
  end.
Proof.
  intros Hj Hinv Ha Hm H.
  revert H. unfold main_tick.
  destruct (handle_events (events f) false g) as [[run click] g1] eqn:He.
  intros H. apply bind_Ok in H as (g2 & Hs & H).
  pose proof (handle_events_counters _ _ _ _ _ _ He) as (_ & _ & Hm1 & _).
  assert (Hg : misses g2 = misses g1 /\ Forall (aged (S j)) (targets g2)).
  { eapply for_targets_grace; [exact Hj| | |exact Hs].
    - eapply handle_events_invariant; eassumption.
    - intros i' t Hi'. simpl.
      eapply Forall_lookup_1 in Hi'; [exact Hi'|].
      eapply handle_events_aged; eassumption. }
  destruct Hg as [Hm2 Hf].
  replace (LIVES <=? misses g2) with false in *
    by (symmetry; apply Z.leb_gt; unfold LIVES; lia).
  apply bind_Ok in H as (b & Hb & H).
  destruct run; injection H as <-; [|exact I].
  split; [|split; [exact Hf|lia]].
  eapply for_targets_invariant; [|exact Hs].
  eapply handle_events_invariant; eassumption.
Qed.

(** X5. A target lives through 299 updates: in the first 299 iterations
    of a session no target is missed and the end screen is not shown,
    whatever the events and the clock. *)
Theorem five_seconds_grace t0 fs o :
  (length fs < LIFETIME)%nat -> main t0 fs = Ok o ->
  match o with
  | Running g => misses g = 0
  | Ended _ => False
  | Exited => True
  end.
Proof.
  unfold main. intros Hlen.
  assert (G : forall fs j g o,
    (j + length fs < LIFETIME)%nat -> invariant g ->
    Forall (aged j) (targets g) -> misses g = 0 ->
    main_loop fs g = Ok o ->
    match o with
    | Running g => misses g = 0
    | Ended _ => False
    | Exited => True
    end).
  { clear. intros fs. induction fs as [|f fs IH]; intros j g o Hj Hinv Ha Hm; simpl.
    - intros [= <-]. exact Hm.
    - simpl in Hj. intros H. apply bind_Ok in H as (o1 & Ht & H).
      pose proof (main_tick_grace j f g o1) as Hg.
      destruct o1 as [g1|s|].
      + destruct Hg as (Hinv1 & Ha1 & Hm1); try assumption; [lia|].
        apply (IH (S j) g1 o); try assumption. lia.
      + exfalso. apply Hg; try assumption. lia.
      + injection H as <-. exact I. }
  apply (G fs 0%nat); try assumption.
  - apply init_invariant.
  - apply Forall_nil_2.
  - reflexivity.
Qed.

Lemma five_seconds_grace_witness :
  (length (idle_session 299) < LIFETIME)%nat /\
  main 0 (idle_session 299) = Ok (Running first_seconds) /\
  misses first_seconds = 0.
Proof.
  assert (H1 : (length (idle_session 299) < LIFETIME)%nat)
    by (vm_compute; lia).
  assert (H2 : main 0 (idle_session 299) = Ok (Running first_seconds))
    by (vm_compute; reflexivity).
  split; [exact H1|]. split; [exact H2|].
  exact (five_seconds_grace 0 (idle_session 299) (Running first_seconds) H1 H2).
Defined.

(* ---- the sweep keeps every other target ---- *)

Lemma for_targets_keeps_half fuel i click pos g g' :
  invariant g -> for_targets fuel i click pos g = Ok g' ->
  ((length (targets g) <= i)%nat -> g' = g) /\
  (length (targets g) + Nat.min i (length (targets g))
   <= 2 * length (targets g') + 1)%nat.
Proof.
  revert i g. induction fuel as [|fuel IH]; intros i g Hinv; simpl.
  - destruct (targets g !! i) eqn:Hi; [discriminate|]. intros [= <-].
    split; [intros _; reflexivity|lia].
  - destruct (targets g !! i) eqn:Hi; [|intros [= <-]; split; [intros _; reflexivity|lia]].
    intros H. apply bind_Ok in H as (g1 & Hv & H).
    assert (Hlt : (i < length (targets g))%nat) by (eapply lookup_lt_Some, Hi).
    split; [intros ?; lia|].
    assert (Hvis : visited i t click pos g g1)
      by (apply visit_visited; [apply Hinv|exact Hi|exact Hv]).
    assert (Hinv1 : invariant g1) by (eapply visited_invariant; eassumption).
    destruct (IH (S i) g1 Hinv1 H) as [Hend Hb].
    assert (Hl : length (targets g1) = length (targets g)
                 \/ S (length (targets g1)) = length (targets g)).
    { destruct Hvis; cbn [targets];
        rewrite ?length_insert, ?length_delete by eauto; lia. }
    destruct Hl as [Hl|Hl]; [lia|].
    destruct (Nat.le_gt_cases (length (targets g1)) (S i)) as [Hc|Hc].
    + rewrite (Hend Hc). lia.
    + lia.
Qed.

Lemma handle_events_spawned evs click g click' g' :
  handle_events evs click g = (true, click', g') ->
  Z.of_nat (length (targets g'))
  = Z.of_nat (length (targets g)) + count_events is_spawn evs.
Proof.
  revert click g. induction evs as [|e evs IH]; intros click g; simpl.
  - intros H. inversion H; subst. lia.
  - destruct e; cbn [is_spawn];
      try (intros H; apply IH in H; cbn [targets] in H; lia).
    + discriminate.
    + intros H. apply IH in H. unfold spawn in H. cbn [targets] in H.
      rewrite length_app in H. cbn [length] in H. lia.
Qed.

(** X4. A removal makes the sweep skip the target that follows, so one
    sweep removes no more than every other target: of the [n] targets it
    starts with (those left by the previous iteration and those
    constructed in this one) at least [n / 2], rounded down, are left. *)
Theorem sweep_keeps_half f g g' :
  reachable g -> main_tick f g = Ok (Running g') ->
  Z.of_nat (length (targets g)) + count_events is_spawn (events f)
  <= 2 * Z.of_nat (length (targets g')) + 1.
Proof.
  intros Hr Ht. apply reachable_invariant in Hr.
  apply main_tick_Running in Ht as (click & g1 & He & Hs & _).
  assert (Hinv1 : invariant g1) by (eapply handle_events_invariant; eassumption).
  apply for_targets_keeps_half in Hs as [_ Hb]; [|exact Hinv1].
  apply handle_events_spawned in He. lia.
Qed.

Lemma sweep_keeps_half_witness :
  reachable before_press /\
  main_tick press before_press = Ok (Running after_press) /\
  Z.of_nat (length (targets before_press))
  + count_events is_spawn (events press)
  <= 2 * Z.of_nat (length (targets after_press)) + 1.
Proof.
  assert (H1 : reachable before_press)
    by (exists 0%float, two_targets; vm_compute; reflexivity).
  assert (H2 : main_tick press before_press = Ok (Running after_press))
    by (vm_compute; reflexivity).
  split; [exact H1|]. split; [exact H2|].
  exact (sweep_keeps_half press before_press after_press H1 H2).
Defined.

(* ================================================================== *)
(** ** One press, several targets *)

Lemma for_targets_alternate fuel i pos g g' :
  invariant g -> Forall (within_reach pos) (targets g) ->
  (i <= length (targets g))%nat ->
  for_targets fuel i true pos g = Ok g' ->
  targets_pressed g'
  = targets_pressed g + (Z.of_nat (length (targets g) - i) + 1) / 2 /\
  misses g' = misses g /\
  Z.of_nat (length (targets g'))
  = Z.of_nat (length (targets g)) - (Z.of_nat (length (targets g) - i) + 1) / 2.
Proof.
  revert i g. induction fuel as [|fuel IH]; intros i g Hinv Hall Hi; simpl.
  - destruct (targets g !! i) eqn:E; [discriminate|]. intros [= <-].
    apply lookup_ge_None in E.
    replace (length (targets g) - i)%nat with 0%nat by lia.
    change ((Z.of_nat 0 + 1) / 2) with 0. lia.
  - destruct (targets g !! i) eqn:E.
    + intros H. apply bind_Ok in H as (g1 & Hv & H).
      assert (Hlt : (i < length (targets g))%nat) by (eapply lookup_lt_Some, E).
      assert (Hvis : visited i t true pos g g1)
        by (apply visit_visited; [apply Hinv|exact E|exact Hv]).
      assert (Hinv1 : invariant g1) by (eapply visited_invariant; eassumption).
      pose proof (Forall_lookup_1 _ _ _ _ Hall E) as [Hz Hc].
      destruct Hvis as [_ Hk|Hm _|_ _]; cbn [andb] in *; try congruence.
      destruct (Nat.le_gt_cases (S i) (length (delete i (targets g)))) as [Hle|Hgt].
      * apply IH in H; [|exact Hinv1|cbn [targets]; apply Forall_delete, Hall
                         |cbn [targets]; exact Hle].
        cbn [targets targets_pressed misses] in H.
        rewrite length_delete in * by eauto.
        destruct H as (A & B & C).
        assert (Q : Z.of_nat (length (targets g) - i)
                    = Z.of_nat (length (targets g) - 1 - S i) + 2) by lia.
        rewrite Q. clear Q. Z.to_euclidean_division_equations. lia.
      * rewrite length_delete in Hgt by eauto.
        assert (Hn : length (targets g) = S i) by lia.
        destruct fuel; simpl in H;
          (destruct (delete i (targets g) !! S i) eqn:E';
           [apply lookup_lt_Some in E'; rewrite length_delete in E' by eauto; lia|]);
          injection H as <-; cbn [targets targets_pressed misses];
          rewrite length_delete by eauto; rewrite Hn;
          replace (S i - i)%nat with 1%nat by lia;
          change ((Z.of_nat 1 + 1) / 2) with 1; lia.
    + intros [= <-]. apply lookup_ge_None in E.
      replace (length (targets g) - i)%nat with 0%nat by lia.
      change ((Z.of_nat 0 + 1) / 2) with 0. lia.
Qed.

(** X10. When the pointer is within reach of every target of the
    collection, a press hits the first, the third, the fifth, ... and
    leaves the others: with [n] targets the iteration scores
    [(n + 1) / 2] hits for the one press it counts and [n / 2] targets
    stay, so the hits of a session can exceed its presses. *)
Theorem press_hits_every_other_target f g g' :
  reachable g -> events f = [MOUSEBUTTONDOWN] ->
  Forall (within_reach (mouse_pos f)) (targets g) ->
  main_tick f g = Ok (Running g') ->
  targets_pressed g'
  = targets_pressed g + (Z.of_nat (length (targets g)) + 1) / 2 /\
  clicks g' = clicks g + 1 /\
  misses g' = misses g /\
  Z.of_nat (length (targets g')) = Z.of_nat (length (targets g)) / 2.
Proof.
  intros Hr He Hall H. apply reachable_invariant in Hr.
  apply main_tick_Running in H as (click & g1 & Hh & Hs & _).
  rewrite He in Hh. cbn [handle_events] in Hh. injection Hh as <- <-.
  pose proof (for_targets_counters _ _ _ _ _ _ Hs) as (_ & Hc & _).
  apply for_targets_alternate in Hs as (A & B & C); cbn [targets] in *;
    [|destruct Hr; constructor; assumption|exact Hall|lia].
  cbn [targets_pressed clicks misses] in *.
  rewrite Nat.sub_0_r in *. repeat split; try assumption; try lia.
  rewrite C. Z.to_euclidean_division_equations. lia.
Qed.

Lemma press_hits_every_other_target_witness :
  reachable stacked /\
  events burst_press = [MOUSEBUTTONDOWN] /\
  Forall (within_reach (mouse_pos burst_press)) (targets stacked) /\
  main_tick burst_press stacked = Ok (Running after_burst) /\
  targets_pressed after_burst
  = targets_pressed stacked + (Z.of_nat (length (targets stacked)) + 1) / 2 /\
  clicks after_burst = clicks stacked + 1 /\
  misses after_burst = misses stacked /\
  Z.of_nat (length (targets after_burst))
  = Z.of_nat (length (targets stacked)) / 2.
Proof.
  assert (H1 : reachable stacked)
    by (exists 0%float, [burst]; vm_compute; reflexivity).
  assert (H2 : events burst_press = [MOUSEBUTTONDOWN]) by reflexivity.
  assert (H3 : Forall (within_reach (mouse_pos burst_press)) (targets stacked))
    by (repeat constructor; vm_compute; reflexivity).
  assert (H4 : main_tick burst_press stacked = Ok (Running after_burst))
    by (vm_compute; reflexivity).
  split; [exact H1|]. split; [exact H2|]. split; [exact H3|].
  split; [exact H4|].
  exact (press_hits_every_other_target burst_press stacked after_burst
           H1 H2 H3 H4).
Defined.

(** In that session one press has scored two hits, and the accuracy of
    the end screen would be 200 per cent. *)
Example hits_exceed_presses :
  clicks after_burst = 1 /\ targets_pressed after_burst = 2 /\
  accuracy (targets_pressed after_burst) (clicks after_burst) = Ok 200%float.
Proof. repeat split; vm_compute; reflexivity. Qed.

(** X11. An iteration that reads the clock at the reading stored in
    [start_time] raises [ZeroDivisionError]: the speed is the number of
    hits divided by an elapsed time of zero, in the top bar as in the end
    screen. *)
Theorem no_elapsed_time_raises f g :
  reachable g -> on_screen (mouse_pos f) ->
  (elapsed f g =? 0)%float = true ->
  main_tick f g = Raise ZeroDivisionError.
Proof.
  intros Hr Hpos Hz. apply reachable_invariant in Hr. unfold main_tick.
  destruct (handle_events (events f) false g) as [[run click] g1] eqn:He.
  destruct (for_targets_answers (length (targets g1)) 0 click (mouse_pos f) g1)
    as (g2 & Hs); [eapply handle_events_invariant; eassumption|exact Hpos|lia|].
  rewrite Hs. cbn [bind].
  unfold end_screen, draw_top_bar, truediv_int_float. rewrite Hz.
  destruct (LIVES <=? misses g2); reflexivity.
Qed.

Lemma no_elapsed_time_raises_witness :
  reachable (init_game 0) /\ on_screen (mouse_pos same_instant) /\
  (elapsed same_instant (init_game 0) =? 0)%float = true /\
  main_tick same_instant (init_game 0) = Raise ZeroDivisionError.
Proof.
  assert (H1 : reachable (init_game 0))
    by (exists 0%float, []; reflexivity).
  assert (H2 : on_screen (mouse_pos same_instant))
    by (unfold on_screen, WIDTH, HEIGHT; simpl; lia).
  assert (H3 : (elapsed same_instant (init_game 0) =? 0)%float = true)
    by (vm_compute; reflexivity).
  split; [exact H1|]. split; [exact H2|]. split; [exact H3|].
  exact (no_elapsed_time_raises same_instant (init_game 0) H1 H2 H3).
Defined.

(* ================================================================== *)
(** ** The order of the collection *)

Lemma StronglySorted_delete (l : list nat) (i : nat) :
  StronglySorted lt l -> StronglySorted lt (delete i l).
Proof.
  intros H. destruct (l !! i) as [x|] eqn:E.
  - rewrite <- (take_drop_middle l i x E) in H.
    rewrite delete_take_drop.
    apply StronglySorted_app in H as (H1 & H2 & H3).
    apply StronglySorted_cons in H3 as [_ H3].
    apply StronglySorted_app. repeat split; try assumption.
    intros a b Ha Hb. apply H1; [exact Ha|]. apply elem_of_cons. right. exact Hb.
  - apply lookup_ge_None in E.
    rewrite delete_take_drop, take_ge, drop_ge, app_nil_r by lia. exact H.
Qed.

Lemma visited_spawn_order i t click pos g g1 :
  targets g !! i = Some t -> visited i t click pos g g1 ->
  in_spawn_order g -> in_spawn_order g1.
Proof.
  intros Hi Hv. unfold in_spawn_order.
  destruct Hv as [_ _|_ _|_ _]; cbn [targets]; intros Ho.
  - rewrite (idents_insert _ _ _ t) by (assumption || reflexivity). exact Ho.
  - rewrite list_fmap_delete. apply StronglySorted_delete, Ho.
  - rewrite list_fmap_delete. apply StronglySorted_delete, Ho.
Qed.

Lemma handle_events_spawn_order evs click g run click' g' :
  invariant g -> in_spawn_order g ->
  handle_events evs click g = (run, click', g') -> in_spawn_order g'.
Proof.
  revert click g. induction evs as [|e evs IH]; intros click g Hinv Ho; simpl.
  - intros [= _ _ <-]. exact Ho.
  - destruct e; try (apply IH; assumption).
    + intros [= _ _ <-]. exact Ho.
    + apply IH; [apply spawn_invariant, Hinv|].
      unfold in_spawn_order, spawn in *. cbn [targets].
      rewrite fmap_app. apply StronglySorted_app. repeat split.
      * intros a b Ha Hb. cbn in Hb. apply list_elem_of_singleton in Hb as ->.
        apply list_elem_of_fmap in Ha as (t & -> & Ht).
        destruct Hinv as [_ _ _ Hf].
        apply (proj1 (Forall_forall _ _) Hf _ Ht).
      * exact Ho.
      * cbn. repeat constructor.
    + apply IH; [destruct Hinv; constructor; assumption|exact Ho].
Qed.

(** X12. The collection is kept in the order of construction: a target
    earlier in the list was constructed earlier. *)
Theorem targets_in_spawn_order g :
  reachable g -> StronglySorted lt (Target.ident <$> targets g).
Proof.
  intros (t0 & fs & H).
  eapply (main_loop_Running_ind in_spawn_order); [| | |exact H].
  - intros f g0 g1 Hinv Ho Ht.
    apply main_tick_Running in Ht as (click & g2 & He & Hs & _).
    eapply (for_targets_visits click (mouse_pos f) in_spawn_order); [| | |exact Hs].
    + intros i t ga gb _ Hi Hv. eapply visited_spawn_order; eassumption.
    + eapply handle_events_invariant; eassumption.
    + eapply handle_events_spawn_order; eassumption.
  - apply init_invariant.
  - constructor.
Qed.

Lemma targets_in_spawn_order_witness :
  reachable before_press /\
  StronglySorted lt (Target.ident <$> targets before_press).
Proof.
  assert (H : reachable before_press)
    by (exists 0%float, two_targets; vm_compute; reflexivity).
  split; [exact H|exact (targets_in_spawn_order before_press H)].
Defined.

(* ================================================================== *)
(** ** The bullseye *)

Lemma ratio_spec f :
  0 < (ratio f).2 /\
  float_value f = (IZR (ratio f).1 / IZR (ratio f).2)%R.
Proof.
  unfold ratio, float_value.
  destruct (Prim2SF f) as [s|s| |s m e]; cbn [fst snd];
    try (split; [lia|lra]).
  destruct (0 <=? e) eqn:He; cbn [fst snd].
  - apply Z.leb_le in He. split; [lia|].
    rewrite powerRZ_2_nonneg by exact He.
    rewrite mult_IZR. destruct s; [change (IZR (Z.neg m)) with (- IZR (Z.pos m))%R|]; lra.
  - apply Z.leb_gt in He.
    assert (HD : 0 < 2 ^ (- e)) by (apply Z.pow_pos_nonneg; lia).
    split; [exact HD|].
    rewrite powerRZ_2_neg by exact He.
    destruct s; [change (IZR (Z.neg m)) with (- IZR (Z.pos m))%R|];
      unfold Rdiv; lra.
Qed.

Lemma ring_fits_spec r :
  ring_fits r = true ->
  is_finite r = true /\ (0 <= float_value r <= IZR TARGET_PADDING)%R.
Proof.
  unfold ring_fits. intros H.
  apply andb_true_iff in H as [H H3]. apply andb_true_iff in H as [H1 H2].
  apply Z.leb_le in H2, H3.
  destruct (ratio_spec r) as [Hd Hv].
  split; [exact H1|]. rewrite Hv.
  assert (HdR : (0 < IZR (ratio r).2)%R) by (apply IZR_lt; exact Hd).
  apply IZR_le in H2, H3. rewrite mult_IZR in H3.
  split.
  - apply Rmult_le_reg_r with (IZR (ratio r).2); [exact HdR|].
    unfold Rdiv. rewrite Rmult_assoc, Rinv_l by lra. lra.
  - apply Rmult_le_reg_r with (IZR (ratio r).2); [exact HdR|].
    unfold Rdiv. rewrite Rmult_assoc, Rinv_l by lra. lra.
Qed.

Lemma rings_check :
  below LIFETIME
    (fun k =>
       rings_fit (Target.draw (target_at k 0 0 0))
       && (Nat.eqb k 0 || rings_shrink None (Target.draw (target_at k 0 0 0))))
  = true.
Proof. vm_compute. reflexivity. Qed.

Lemma updated_target_at k t :
  updated k t ->
  t = target_at k (Target.ident t) (Target.x t) (Target.y t).
Proof.
  unfold updated, target_at. destruct t as [id x y s g].
  cbn [Target.size Target.growth Target.ident Target.x Target.y].
  intros H. rewrite <- H. reflexivity.
Qed.

(** X13. A target that was updated at least once is painted as a
    bullseye: four circles on its centre, in [COLOR], [SECOND_COLOR],
    [COLOR], [SECOND_COLOR], the first with the radius of the target,
    each of the others smaller than the one painted before it, and the
    last with a positive radius. *)
Theorem rings_nested k t :
  updated k t -> (1 <= k < LIFETIME)%nat ->
  exists r2 r3 r4,
    Target.draw t
    = [circle Target.COLOR (Target.x t, Target.y t) (Target.size t);
       circle Target.SECOND_COLOR (Target.x t, Target.y t) r2;
       circle Target.COLOR (Target.x t, Target.y t) r3;
       circle Target.SECOND_COLOR (Target.x t, Target.y t) r4] /\
    (r2 <? Target.size t)%float = true /\
    (r3 <? r2)%float = true /\
    (r4 <? r3)%float = true /\
    (0 <? r4)%float = true.
Proof.
  intros Hu [Hk1 Hk2].
  pose proof (below_spec _ _ rings_check k Hk2) as H. cbv beta in H.
  apply andb_true_iff in H as [_ H].
  destruct k as [|k]; [lia|]. cbn [Nat.eqb orb] in H.
  rewrite (updated_target_at _ _ Hu). unfold Target.draw.
  cbn [Target.x Target.y Target.size target_at].
  unfold Target.draw in H. cbn [Target.x Target.y Target.size target_at rings_shrink] in H.
  rewrite !andb_true_iff in H. destruct H as (_ & A & B & C & D).
  eexists _, _, _. split; [reflexivity|]. repeat split; assumption.
Qed.

Lemma rings_nested_witness :
  updated 1 young_target /\ (1 <= 1 < LIFETIME)%nat /\
  exists r2 r3 r4,
    Target.draw young_target
    = [circle Target.COLOR (Target.x young_target, Target.y young_target)
         (Target.size young_target);
       circle Target.SECOND_COLOR
         (Target.x young_target, Target.y young_target) r2;
       circle Target.COLOR (Target.x young_target, Target.y young_target) r3;
       circle Target.SECOND_COLOR
         (Target.x young_target, Target.y young_target) r4] /\
    (r2 <? Target.size young_target)%float = true /\
    (r3 <? r2)%float = true /\
    (r4 <? r3)%float = true /\
    (0 <? r4)%float = true.
Proof.
  assert (H1 : updated 1 young_target) by reflexivity.
  assert (H2 : (1 <= 1 < LIFETIME)%nat) by (unfold LIFETIME; lia).
  split; [exact H1|]. split; [exact H2|].
  exact (rings_nested 1 young_target H1 H2).
Defined.

Lemma draw_circle (l : list Target.t) c center r :
  circle c center r ∈ draw l ->
  exists t, t ∈ l /\ circle c center r ∈ Target.draw t.
Proof.
  unfold draw. intros H. apply elem_of_cons in H as [H|H]; [discriminate|].
  apply list_elem_of_In, in_flat_map in H as (t & Ht & H).
  exists t. split; apply list_elem_of_In; assumption.
Qed.

(** X14. Every circle painted for the targets of a state the running
    loop reaches has a radius between [0] and [TARGET_PADDING] and lies
    inside the window and below the top bar: the padding of the area
    targets are placed in is their largest radius. *)
Theorem targets_painted_inside g c center r :
  reachable g -> circle c center r ∈ draw (targets g) ->
  is_finite r = true /\
  (0 <= float_value r <= IZR TARGET_PADDING)%R /\
  (0 <= IZR center.1 - float_value r)%R /\
  (IZR center.1 + float_value r <= IZR WIDTH)%R /\
  (IZR TOP_BAR_HEIGHT <= IZR center.2 - float_value r)%R /\
  (IZR center.2 + float_value r <= IZR HEIGHT)%R.
Proof.
  intros Hr Hin. apply reachable_invariant in Hr as [Ha Hp _ _].
  apply draw_circle in Hin as (t & Ht & Hin).
  pose proof (proj1 (Forall_forall _ _) Ha _ Ht) as (k & Hk & Hu).
  pose proof (proj1 (Forall_forall _ _) Hp _ Ht) as [[Hx1 Hx2] [Hy1 Hy2]].
  pose proof (below_spec _ _ rings_check k Hk) as H. cbv beta in H.
  apply andb_true_iff in H as [H _].
  assert (Hfit : ring_fits r = true /\ center = (Target.x t, Target.y t)).
  { rewrite (updated_target_at _ _ Hu) in Hin.
    unfold Target.draw in Hin, H.
    cbn [Target.x Target.y Target.size target_at rings_fit forallb] in Hin, H.
    rewrite !andb_true_iff in H. destruct H as (A & B & C & D & _).
    repeat (apply elem_of_cons in Hin as [Hin|Hin];
            [injection Hin as -> -> ->; split; [assumption|reflexivity]|]).
    inversion Hin. }
  destruct Hfit as [Hfit ->]. cbn [fst snd].
  apply ring_fits_spec in Hfit as [Hf [H0 H30]].
  unfold TARGET_PADDING, WIDTH, HEIGHT, TOP_BAR_HEIGHT in *.
  apply IZR_le in Hx1, Hx2, Hy1, Hy2.
  rewrite ?plus_IZR, ?minus_IZR in *.
  repeat split; try assumption; lra.
Qed.

Lemma targets_painted_inside_witness :
  reachable before_press /\
  circle Target.COLOR (outer_ring.1.1, outer_ring.1.2) outer_ring.2
    ∈ draw (targets before_press) /\
  is_finite outer_ring.2 = true /\
  (0 <= float_value outer_ring.2 <= IZR TARGET_PADDING)%R /\
  (0 <= IZR outer_ring.1.1 - float_value outer_ring.2)%R /\
  (IZR outer_ring.1.1 + float_value outer_ring.2 <= IZR WIDTH)%R /\
  (IZR TOP_BAR_HEIGHT <= IZR outer_ring.1.2 - float_value outer_ring.2)%R /\
  (IZR outer_ring.1.2 + float_value outer_ring.2 <= IZR HEIGHT)%R.
Proof.
  assert (H1 : reachable before_press)
    by (exists 0%float, two_targets; vm_compute; reflexivity).
  assert (H2 : circle Target.COLOR (outer_ring.1.1, outer_ring.1.2)
                 outer_ring.2 ∈ draw (targets before_press))
    by (apply elem_of_cons; right; apply elem_of_cons; left; reflexivity).
  split; [exact H1|]. split; [exact H2|].
  exact (targets_painted_inside before_press Target.COLOR
           (outer_ring.1.1, outer_ring.1.2) outer_ring.2 H1 H2).
Defined.

(* ================================================================== *)
(** ** The labels of the end screen *)

Lemma centred_check : range_all 12 0 centred = true.
Proof. vm_compute. reflexivity. Qed.

(** X15. [get_middle] centres a label: for a surface up to 4095 pixels
    wide it answers, without raising, a number [m] that leaves the same
    margin on both sides of the label, [m + width + m = WIDTH] (a
    negative one for a label wider than the window). *)
Theorem get_middle_centres width :
  0 <= width < 2 ^ 12 ->
  exists m,
    get_middle width = Ok m /\ is_finite m = true /\
    (float_value m + IZR width + float_value m = IZR WIDTH)%R.
Proof.
  intros Hw.
  pose proof (range_all_spec _ _ _ centred_check width) as H.
  change (2 ^ Z.of_nat 12) with (2 ^ 12) in H.
  specialize (H ltac:(lia)). unfold centred in H.
  unfold get_middle, truediv_int_int.
  change (2 =? 0) with false. cbn [bind].
  rewrite !float_of_int_uint63
    by (unfold WIDTH; change (2 ^ 63) with 9223372036854775808;
        change (2 ^ 12) with 4096 in Hw; lia).
  eexists. split; [reflexivity|].
  apply andb_true_iff in H as [Hf H]. split; [exact Hf|].
  apply Z.eqb_eq in H.
  match type of Hf with is_finite ?m = true => set (mid := m) in * end.
  destruct (ratio_spec mid) as [Hd Hv]. rewrite Hv.
  assert (HdR : (0 < IZR (ratio mid).2)%R) by (apply IZR_lt; exact Hd).
  apply (f_equal IZR) in H. rewrite plus_IZR, !mult_IZR in H.
  apply Rmult_eq_reg_r with (IZR (ratio mid).2); [|lra].
  unfold Rdiv. rewrite !Rmult_plus_distr_r, Rmult_assoc, Rinv_l by lra. lra.
Qed.

Lemma get_middle_centres_witness :
  0 <= 200 < 2 ^ 12 /\
  exists m,
    get_middle 200 = Ok m /\ is_finite m = true /\
    (float_value m + IZR 200 + float_value m = IZR WIDTH)%R.
Proof.
  assert (H : 0 <= 200 < 2 ^ 12) by (change (2 ^ 12) with 4096; lia).
  split; [exact H|exact (get_middle_centres 200 H)].
Defined.

(* ================================================================== *)
(** ** The time label *)

Lemma frames_check : range_all 12 0 frame_checked = true.
Proof. vm_compute. reflexivity. Qed.

(** X16. The time label of the first 4096 frames of a session at sixty
    frames a second.  The minutes are those of the clock.  The seconds
    are rounded to a tenth before they are cut: from the 59th frame of
    a second on the label is one second ahead (in the 58th it may be),
    and it reads 60 at the end of a minute.  The last digit is the tenths
    of the clock, or one less where the clock is at a whole number of
    tenths and the product by 1000 falls short of it. *)
Theorem time_label_of_frame i :
  0 <= i < 2 ^ 12 ->
  exists milli seconds minutes,
    format_time (frame_time i)
    = inr (format_02d minutes +:+ ":" +:+ format_02d seconds +:+ ":"
           +:+ decimal milli) /\
    minutes = i / 3600 /\
    (seconds = i mod 3600 / 60 \/ seconds = i mod 3600 / 60 + 1) /\
    (i mod 60 <= 56 -> seconds = i mod 3600 / 60) /\
    (58 <= i mod 60 -> seconds = i mod 3600 / 60 + 1) /\
    (milli = i mod 60 / 6 \/
     milli = i mod 60 / 6 - 1 /\ i mod 60 mod 6 = 0 /\ 0 < i mod 60).
Proof.
  intros Hi.
  pose proof (range_all_spec _ _ _ frames_check i) as H.
  change (2 ^ Z.of_nat 12) with (2 ^ 12) in H.
  specialize (H ltac:(lia)). unfold frame_checked in H.
  unfold format_time, frame_time.
  rewrite !float_of_int_uint63
    by (unfold FPS; change (2 ^ 63) with 9223372036854775808;
        change (2 ^ 12) with 4096 in Hi; lia).
  destruct (time_fields _) as [e|[[milli seconds] minutes]]; [discriminate|].
  exists milli, seconds, minutes. cbn [and_then]. split; [reflexivity|].
  unfold fields_of_frame in H. cbv zeta in H.
  apply andb_true_iff in H as [H Hm]. apply andb_true_iff in H as [Hmin Hs].
  apply Z.eqb_eq in Hmin.
  split; [exact Hmin|].
  assert (Hs' : (seconds = i mod 3600 / 60 \/ seconds = i mod 3600 / 60 + 1) /\
                (i mod 60 <= 56 -> seconds = i mod 3600 / 60) /\
                (58 <= i mod 60 -> seconds = i mod 3600 / 60 + 1)).
  { destruct (i mod 60 <=? 56) eqn:E1.
    - apply Z.leb_le in E1. apply Z.eqb_eq in Hs.
      repeat split; [left; exact Hs|intros _; exact Hs|intros ?; lia].
    - apply Z.leb_gt in E1. destruct (58 <=? i mod 60) eqn:E2.
      + apply Z.leb_le in E2. apply Z.eqb_eq in Hs.
        repeat split; [right; exact Hs|intros ?; lia|intros _; exact Hs].
      + apply Z.leb_gt in E2. apply orb_true_iff in Hs.
        repeat split; [|intros ?; lia|intros ?; lia].
        destruct Hs as [Hs|Hs]; apply Z.eqb_eq in Hs; auto. }
  destruct Hs' as (S1 & S2 & S3).
  repeat split; try assumption.
  apply orb_true_iff in Hm as [Hm|Hm].
  - left. apply Z.eqb_eq, Hm.
  - right. apply andb_true_iff in Hm as [Hm M3].
    apply andb_true_iff in Hm as [M1 M2].
    apply Z.eqb_eq in M1, M2. apply Z.ltb_lt in M3. auto.
Qed.

Lemma time_label_of_frame_witness :
  0 <= 3599 < 2 ^ 12 /\
  exists milli seconds minutes,
    format_time (frame_time 3599)
    = inr (format_02d minutes +:+ ":" +:+ format_02d seconds +:+ ":"
           +:+ decimal milli) /\
    minutes = 3599 / 3600 /\
    (seconds = 3599 mod 3600 / 60 \/ seconds = 3599 mod 3600 / 60 + 1) /\
    (3599 mod 60 <= 56 -> seconds = 3599 mod 3600 / 60) /\
    (58 <= 3599 mod 60 -> seconds = 3599 mod 3600 / 60 + 1) /\
    (milli = 3599 mod 60 / 6 \/
     milli = 3599 mod 60 / 6 - 1 /\ 3599 mod 60 mod 6 = 0 /\ 0 < 3599 mod 60).
Proof.
  assert (H : 0 <= 3599 < 2 ^ 12) by (change (2 ^ 12) with 4096; lia).
  split; [exact H|exact (time_label_of_frame 3599 H)].
Defined.

Lemma seconds_check : range_all 12 0 second_checked = true.
Proof. vm_compute. reflexivity. Qed.

(** X17. On a whole number of seconds, up to 4095 of them (more than an
    hour), the label is exact: the minutes, the seconds below sixty, and
    no tenths. *)
Theorem time_label_of_whole_seconds n :
  0 <= n < 2 ^ 12 ->
  format_time (float_of_int n)
  = inr (format_02d (n / 60) +:+ ":" +:+ format_02d (n mod 60) +:+ ":0").
Proof.
  intros Hn.
  pose proof (range_all_spec _ _ _ seconds_check n) as H.
  change (2 ^ Z.of_nat 12) with (2 ^ 12) in H.
  specialize (H ltac:(lia)). unfold second_checked in H.
  rewrite float_of_int_uint63
    by (change (2 ^ 63) with 9223372036854775808;
        change (2 ^ 12) with 4096 in Hn; lia).
  destruct (format_time _) as [e|l]; [discriminate|].
  apply String.eqb_eq in H. rewrite H. reflexivity.
Qed.

Lemma time_label_of_whole_seconds_witness :
  0 <= 3725 < 2 ^ 12 /\
  format_time (float_of_int 3725)
  = inr (format_02d (3725 / 60) +:+ ":" +:+ format_02d (3725 mod 60)
         +:+ ":0").
Proof.
  assert (H : 0 <= 3725 < 2 ^ 12) by (change (2 ^ 12) with 4096; lia).
  split; [exact H|exact (time_label_of_whole_seconds 3725 H)].
Defined.

(** The last frame of the first minute: the label reads sixty seconds. *)
Example label_reads_sixty : format_time (frame_time 3599) = inr "00:60:9".
Proof. vm_compute. reflexivity. Qed.

(** The frame clock is the clock of [frame_at]. *)
Example frame_time_now i pos evs :
  now (frame_at i pos evs) = frame_time (Z.of_nat i).
Proof. reflexivity. Qed.

(** A frame at a whole number of tenths, 32.3 seconds: the product by
    1000 falls short of 32300 and the label shows two tenths. *)
Example label_tenth_short : format_time (frame_time 1938) = inr "00:32:2".
Proof. vm_compute. reflexivity. Qed.
